(** * srec2inc: S-record to include-file converter

    A shallow embedding of [atoh.cpp] and [srec2inc.cpp] and the
    properties of the record parser and packet emitter that the
    specification states.

    Conventions of the embedding.
    - C strings and raw buffers are [list ascii]; a buffer is the list of
      the bytes from the pointer to the end of its allocation, so pointer
      arithmetic [p += n] is [skipn n] and [p[i]] is [nth_error p i].  An
      access outside the allocation is undefined behaviour and is reported
      as [Fault].
    - [int] variables are [Z].  On the paths where the emitter returns, all
      of them stay far inside the 32-bit range; on the runaway path of the
      payload loop the read index leaves the 1024-byte line buffer long
      before a counter could leave the [int] range.
    - [calloc] is assumed to succeed.
    - Loops that the source does not bound take a [fuel] argument;
      [OutOfFuel] means that the fuel was used up. *)

From Stdlib Require Import ZArith Ascii String Bool Lia List.
From Stdlib Require Import DecimalString.
Import ListNotations.
Local Open Scope Z_scope.

(* ================================================================== *)
(** * Characters and C strings *)

Definition NUL : ascii := "000"%char.
Definition LF : ascii := "010"%char.

(** Text literals of the source as character lists. *)
Definition txt (s : string) : list ascii := list_ascii_of_string s.

Definition code (ch : ascii) : Z := Z.of_N (N_of_ascii ch).

Definition is_nul (ch : ascii) : bool := code ch =? 0.

(** The C string stored at the start of a buffer: the bytes before the
    first NUL. *)
Fixpoint cstr (buf : list ascii) : list ascii :=
  match buf with
  | [] => []
  | ch :: rest => if is_nul ch then [] else ch :: cstr rest
  end.

(** [isspace] in the "C" locale: space, \t, \n, \v, \f, \r. *)
Definition isspace (ch : ascii) : bool :=
  let n := code ch in (n =? 32) || ((9 <=? n) && (n <=? 13)).

(* ================================================================== *)
(** * atoh.cpp *)

(** The four instantiations of the template. *)
Inductive width := W8 | W16 | W32 | W64.

(** [sizeof(T)] *)
Definition sizeof (w : width) : Z :=
  match w with W8 => 1 | W16 => 2 | W32 => 4 | W64 => 8 end.

Definition bits (w : width) : Z := 8 * sizeof w.

(** Conversion of a value to the unsigned type [T]. *)
Definition wrap (w : width) (v : Z) : Z := v mod 2 ^ bits w.

(** The three digit ranges of the loop body; [None] is the [else] branch
    that leaves the loop. *)
Definition hex_digit (ch : ascii) : option Z :=
  let n := code ch in
  if (48 <=? n) && (n <=? 57) then Some (n - 48)
  else if (97 <=? n) && (n <=? 102) then Some (n - 97 + 10)
  else if (65 <=? n) && (n <=? 70) then Some (n - 65 + 10)
  else None.

Definition is_hex (ch : ascii) : bool :=
  match hex_digit ch with Some _ => true | None => false end.

(** The [while] loop of [atoh].  The result is the value and whether the
    "Template overflow" diagnostic was printed. *)
Fixpoint atoh_loop (w : width) (string : list ascii) (value bail : Z)
  : Z * bool :=
  match string with
  | [] => (value, false)
  | ch :: rest =>
      if is_nul ch then (value, false)
      else match hex_digit ch with
           | None => (value, false)
           | Some digit =>
               if bail =? 0 then (value, true)
               else atoh_loop w rest (wrap w (Z.shiftl value 4 + digit))
                              (bail - 1)
           end
  end.

Definition atoh (w : width) (string : list ascii) : Z * bool :=
  atoh_loop w string 0 (Z.shiftl (sizeof w) 1).

(* ================================================================== *)
(** * The C library calls of srec2inc.cpp *)

(** Value of an [unsigned] stored into an [int]. *)
Definition to_int32 (v : Z) : Z :=
  let u := v mod 2 ^ 32 in if u <? 2 ^ 31 then u else u - 2 ^ 32.

Fixpoint skip_ws (s : list ascii) : list ascii :=
  match s with
  | ch :: rest => if isspace ch then skip_ws rest else s
  | [] => []
  end.

(** The hex digits at the start of [s], accumulated onto [acc]; [None]
    when there is none. *)
Fixpoint scan_hex (s : list ascii) (acc : option Z) : option Z :=
  match s with
  | [] => acc
  | ch :: rest =>
      match hex_digit ch with
      | Some d =>
          scan_hex rest
            (Some (match acc with Some a => a | None => 0 end * 16 + d))
      | None => acc
      end
  end.

Definition is_x (ch : ascii) : bool := (code ch =? 120) || (code ch =? 88).

(** After the sign: an optional [0x] prefix, then the digits. *)
Definition scan_unsigned (s : list ascii) : option Z :=
  match s with
  | z :: x :: rest =>
      if (code z =? 48) && is_x x then scan_hex rest None
      else scan_hex s None
  | _ => scan_hex s None
  end.

(** [sscanf_s(buf, "%x", &var)] with [int var]: leading white space, an
    optional sign, an optional [0x], hex digits.  [None] is a matching
    failure: nothing is stored and [var] keeps its value.  The buffers
    passed here hold at most eight characters, so the [unsigned] never
    saturates.  A bare [0x] with no digit after it is a matching failure
    here, as the C standard has it; some libraries store 0 instead. *)
Definition sscanf_x (buf : list ascii) : option Z :=
  match skip_ws (cstr buf) with
  | [] => None
  | ch :: rest =>
      if code ch =? 45 then option_map (fun v => to_int32 (- v)) (scan_unsigned rest)
      else if code ch =? 43 then option_map to_int32 (scan_unsigned rest)
      else option_map to_int32 (scan_unsigned (ch :: rest))
  end.

(** The digit characters of ["%X"]. *)
Definition hex_char (d : Z) : ascii :=
  ascii_of_N (Z.to_N (if d <? 10 then 48 + d else 55 + d)).

(** The [k] low hex digits of [u], most significant first. *)
Fixpoint hex_digits (k : nat) (u : Z) : list ascii :=
  match k with
  | O => []
  | S k' => hex_digits k' (u / 16) ++ [hex_char (u mod 16)]
  end.

(** Number of hex digits of [u] (one for zero), for [u] below 16^fuel. *)
Fixpoint ndigits (fuel : nat) (u : Z) : nat :=
  match fuel with
  | O => O
  | S f => if u <? 16 then 1%nat else S (ndigits f (u / 16))
  end.

(** [sprintf_s(buf, 16, "%0<minw>X", n)] with [int n]: the argument is
    read as [unsigned]; the field grows when the value needs more digits. *)
Definition sprintf_X (minw : nat) (n : Z) : list ascii :=
  let u := n mod 2 ^ 32 in hex_digits (Nat.max minw (ndigits 8 u)) u.

(** [out << n] for an [int]. *)
Definition dec (n : Z) : list ascii :=
  txt (NilZero.string_of_int (Z.to_int n)).

(* ================================================================== *)
(** * The output stream *)

Inductive space := SpaceX | SpaceY | SpaceP.

(** The three accepted values of [mem_space]; anything else takes the
    [else] branch "Unknown srec memory space". *)
Definition known_space (mem_space : Z) : option space :=
  if mem_space =? 2 then Some SpaceY
  else if mem_space =? 1 then Some SpaceX
  else if mem_space =? 4 then Some SpaceP
  else None.

Definition space_letter (sp : space) : string :=
  match sp with SpaceX => "X" | SpaceY => "Y" | SpaceP => "P" end.

Definition space_header (sp : space) : string :=
  match sp with SpaceX => "0xC5" | SpaceY => "0xC6" | SpaceP => "0xC4" end.

(** One group of [out << ...] insertions of [buildIncFile]. *)
Inductive item :=
| FileHeader
    (* lines 170-186 *)
| LenDecl (sp : space) (suffix : list ascii) (n : Z)
    (* "uint32_t const PPP_Y" << suffix << "_LEN = " << n << ";" << endl *)
| ArrOpen (sp : space) (suffix : list ascii)
    (* "uint8_t  const PPP_Y" << suffix << "[] = {" *)
| PPPHead (sp : space) (len : list ascii)
    (* "0xC6,0x00,0x" << len *)
| AddrBytes (t0 t1 t2 t3 t4 t5 : ascii)
    (* ",0x" << t0 << t1 << ",0x" << t2 << t3 << ",0x" << t4 << t5 *)
| PayloadByte (c0 c1 : ascii)
    (* ",0x" << line[offset_cnt] << line[offset_cnt+1] *)
| ArrClose.
    (* "};" << endl << endl *)

Definition file_header : list ascii :=
  txt "// $Id$" ++ [LF; LF]
  ++ txt "/**" ++ [LF]
  ++ txt " * @file <filename>" ++ [LF]
  ++ txt " * " ++ [LF]
  ++ txt " * This include file is for Freescale DSP (DSP563xx).  The data is transfered" ++ [LF]
  ++ txt " * via CHIRP commands when the device is booted into PPP operational mode." ++ [LF]
  ++ txt " *" ++ [LF]
  ++ txt " * @brief This file contains the data to be transfered into a DSP563xx's" ++ [LF]
  ++ txt " *         RAM and is registered as a SLOT PPP " ++ [LF]
  ++ txt " *" ++ [LF]
  ++ txt " * @author <author>  " ++ [LF]
  ++ txt " * " ++ [LF]
  ++ txt " * @version <version> " ++ [LF]
  ++ txt " * " ++ [LF]
  ++ txt " */ " ++ [LF; LF]
  ++ txt "// $Log$ " ++ [LF; LF]
  ++ txt "#include <stdint.h>" ++ [LF; LF].

Definition render_item (it : item) : list ascii :=
  match it with
  | FileHeader => file_header
  | LenDecl sp suffix n =>
      txt "uint32_t const PPP_" ++ txt (space_letter sp) ++ suffix
      ++ txt "_LEN = " ++ dec n ++ txt ";" ++ [LF]
  | ArrOpen sp suffix =>
      txt "uint8_t  const PPP_" ++ txt (space_letter sp) ++ suffix
      ++ txt "[] = {"
  | PPPHead sp len => txt (space_header sp) ++ txt ",0x00,0x" ++ len
  | AddrBytes t0 t1 t2 t3 t4 t5 =>
      txt ",0x" ++ [t0; t1] ++ txt ",0x" ++ [t2; t3] ++ txt ",0x" ++ [t4; t5]
  | PayloadByte c0 c1 => txt ",0x" ++ [c0; c1]
  | ArrClose => txt "};" ++ [LF; LF]
  end.

(** The text of the output file. *)
Definition render (out : list item) : list ascii :=
  flat_map render_item out.

(** Messages written to [stderr]. *)
Inductive diag :=
| TemplateOverflow
| InvalidParameterN
| CouldNotOpenFile (path : list ascii)
| InvalidParameterO (path : list ascii)
| UnknownParameter (arg : list ascii)
| DefaultFileFailed
| UnknownMemorySpace.

(* ================================================================== *)
(** * Control flow of a block of [buildIncFile] *)

Inductive flow (A : Type) :=
| Next (out : list item) (a : A)
    (* the block was left at its end, having written [out] *)
| Ret (out : list item) (err : list diag) (code : Z)
    (* a [return code;] inside the block *)
| Fault (out : list item)
    (* an access outside the line buffer *)
| OutOfFuel.

Arguments Next {A} out a.
Arguments Ret {A} out err code.
Arguments Fault {A} out.
Arguments OutOfFuel {A}.

(** [out << items], then [k]. *)
Definition write {A} (items : list item) (k : flow A) : flow A :=
  match k with
  | Next out a => Next (items ++ out) a
  | Ret out err c => Ret (items ++ out) err c
  | Fault out => Fault (items ++ out)
  | OutOfFuel => OutOfFuel
  end.

Definition bind {A B} (m : flow A) (k : A -> flow B) : flow B :=
  match m with
  | Next out a => write out (k a)
  | Ret out err c => Ret out err c
  | Fault out => Fault out
  | OutOfFuel => OutOfFuel
  end.

(** The block neither reached its end nor a [return]. *)
Definition stuck {A} (k : flow A) : Prop :=
  match k with
  | Fault _ | OutOfFuel => True
  | Next _ _ | Ret _ _ _ => False
  end.

(** [buf[i]] *)
Definition at_ (buf : list ascii) (i : Z) : option ascii :=
  if i <? 0 then None else nth_error buf (Z.to_nat i).

(* ================================================================== *)
(** * srec2inc.cpp: the S2 branch of [buildIncFile] *)

(** The [for] loop that counts the leading '0' characters among the
    first [k] bytes of [tmp_address]. *)
Fixpoint leading_zeros (k : nat) (tmp_address : list ascii) : Z :=
  match k, tmp_address with
  | S k', ch :: rest =>
      if code ch =? 48 then 1 + leading_zeros k' rest else 0
  | _, _ => 0
  end.

(** [out << (tmp_address + offset_cnt)] *)
Definition name_suffix (tmp_address : list ascii) (offset_cnt : Z)
  : list ascii :=
  cstr (skipn (Z.to_nat offset_cnt) tmp_address).

(** The length constant and the opening of the array (lines 273-316 and
    412-455, the same text for the three memory spaces). *)
Definition declare (sp : space) (suffix : list ascii) (rec_len pkt_size : Z)
  : list item :=
  [ LenDecl sp suffix
      (if rec_len + 6 <=? pkt_size then rec_len + 6 else pkt_size);
    ArrOpen sp suffix ].

(** [tmp_address[0]] ... [tmp_address[5]] of the 32-byte zeroed buffer. *)
Definition addr_bytes (tmp_address : list ascii) : item :=
  AddrBytes (nth 0 tmp_address NUL) (nth 1 tmp_address NUL)
            (nth 2 tmp_address NUL) (nth 3 tmp_address NUL)
            (nth 4 tmp_address NUL) (nth 5 tmp_address NUL).

(** Value left in an [int] by [sscanf_s], which was 0 before the call. *)
Definition scanned (buf : list ascii) : Z :=
  match sscanf_x buf with Some v => v | None => 0 end.

(** The [do ... while (rec_len != 0)] loop, lines 367-505.  [line] is the
    pointer after [line += 4; line += 6].  In the [else] arm the two
    chains of tests on [mem_space] (lines 412-463 and 476-498) are again
    one [match]. *)
Fixpoint payload_loop (fuel : nat) (pkt_size mem_space : Z)
    (line : list ascii) (write_cnt rec_len offset_cnt : Z)
    (tmp_address : list ascii) : flow unit :=
  match fuel with
  | O => OutOfFuel
  | S fuel' =>
      if write_cnt + 6 <? pkt_size then
        match at_ line offset_cnt, at_ line (offset_cnt + 1) with
        | Some c0, Some c1 =>
            write [PayloadByte c0 c1]
              (let rec_len := rec_len - 1 in
               if rec_len =? 0 then Next [] tt
               else payload_loop fuel' pkt_size mem_space line
                      (write_cnt + 1) rec_len (offset_cnt + 2) tmp_address)
        | _, _ => Fault []
        end
      else
        write [ArrClose]
          (let new_address := scanned tmp_address + Z.quot write_cnt 3 in
           let write_cnt := 0 in
           let tmp_address := sprintf_X 6 new_address in
           let off_cnt := leading_zeros 6 tmp_address in
           match known_space mem_space with
           | None => Ret [] [UnknownMemorySpace] (-1)
           | Some sp =>
               write (declare sp (name_suffix tmp_address off_cnt)
                              rec_len pkt_size)
                 (let len :=
                    if rec_len + 6 <? pkt_size
                    then sprintf_X 2 (Z.quot rec_len 3)
                    else sprintf_X 2 (Z.quot (pkt_size - 6) 3) in
                  write [PPPHead sp len; addr_bytes tmp_address]
                    (if rec_len =? 0 then Next [] tt
                     else payload_loop fuel' pkt_size mem_space line
                            write_cnt rec_len offset_cnt tmp_address))
           end)
  end.

(** The body of [else if (strncmp(line, "S2", ...) == 0)], lines 216-510.
    The result is the value of [line] after the branch.  The source
    tests [mem_space] a second time before the PPP header (lines
    339-361); [mem_space] has not changed since the first test, so the
    second [else] is never taken and one [match] stands for both. *)
Definition emit_record (fuel : nat) (pkt_size mem_space : Z)
    (line : list ascii) : flow (list ascii) :=
  match at_ line 2, at_ line 3 with
  | Some l0, Some l1 =>
      let rec_len := scanned [l0; l1] in
      let line := skipn 4 line in
      let rec_len := rec_len - 4 in
      match line with
      | t0 :: t1 :: t2 :: t3 :: t4 :: t5 :: _ =>
          let tmp_address := [t0; t1; t2; t3; t4; t5] in
          let offset_cnt := leading_zeros 6 tmp_address in
          match known_space mem_space with
          | None => Ret [] [UnknownMemorySpace] (-1)
          | Some sp =>
              write (declare sp (name_suffix tmp_address offset_cnt)
                             rec_len pkt_size)
                (let line := skipn 6 line in
                 let len :=
                   if rec_len + 6 <=? pkt_size
                   then sprintf_X 2 (Z.quot rec_len 3)
                   else sprintf_X 2 (Z.quot (pkt_size - 6) 3) in
                 write [PPPHead sp len; addr_bytes tmp_address]
                   (bind (payload_loop fuel pkt_size mem_space line
                                       0 rec_len 0 tmp_address)
                         (fun _ => Next [ArrClose] line)))
          end
      | _ => Fault []
      end
  | _, _ => Fault []
  end.

(* ================================================================== *)
(** * srec2inc.cpp: the record loop of [buildIncFile] *)

(** The input stream: the characters not yet read and [eofbit].  The
    loop only extracts while the stream is good.  A stream that fails
    before the end of the file (a read error) is not represented: the
    model describes inputs that are read to their end. *)
Record istream := { chars : list ascii; eofbit : bool }.

Fixpoint token (s : list ascii) : list ascii * list ascii :=
  match s with
  | [] => ([], [])
  | ch :: rest =>
      if isspace ch then ([], s)
      else let (tok, rest') := token rest in (ch :: tok, rest')
  end.

Definition is_nil {A} (l : list A) : bool :=
  match l with [] => true | _ => false end.

(** [in >> line].  When only white space is left the sentry fails: the
    state becomes [eofbit | failbit] and nothing is stored.  Otherwise the
    next white-space delimited token and a NUL are stored at [line];
    [eofbit] is set when the token ran into the end of the file.  [None]:
    the token does not fit between [line] and the end of the buffer.  The
    source makes no such test and writes past the allocation, which is
    undefined behaviour; the model counts it as a crash at that point. *)
Definition extract (inp : istream) (line : list ascii)
  : option (istream * list ascii) :=
  match skip_ws (chars inp) with
  | [] => Some ({| chars := []; eofbit := true |}, line)
  | s =>
      let (tok, rest) := token s in
      if (Z.of_nat (length tok) + 1 <=? Z.of_nat (length line))
      then Some ({| chars := rest; eofbit := is_nil rest |},
                 tok ++ NUL :: skipn (S (length tok)) line)
      else None
  end.

(** [strncmp(line, "Sd", 2) == 0]; [None] when the comparison reads past
    the end of the buffer. *)
Definition record_is (line : list ascii) (d : ascii) : option bool :=
  match line with
  | [] => None
  | c0 :: rest =>
      if negb (code c0 =? 83) then Some false
      else match rest with
           | [] => None
           | c1 :: _ => Some (code c1 =? code d)
           end
  end.

(** One pass through the body of the outer [do] loop after [in >> line]:
    the new [line] pointer and the new [mem_space]. *)
Definition record_body (fuel : nat) (pkt_size : Z) (line : list ascii)
    (mem_space : Z) : flow (list ascii * Z) :=
  match record_is line "0" with
  | None => Fault []
  | Some true =>
      match at_ line 6, at_ line 7 with
      | Some m0, Some m1 =>
          Next [] (line, match sscanf_x [m0; m1] with
                         | Some v => v
                         | None => mem_space
                         end)
      | _, _ => Fault []
      end
  | Some false =>
      match record_is line "2" with
      | None => Fault []
      | Some true =>
          bind (emit_record fuel pkt_size mem_space line)
               (fun line' => Next [] (line', mem_space))
      | Some false =>
          match record_is line "8" with
          | None => Fault []
          | Some true => Next [] (line, 0)
          | Some false => Next [] (line, 0)
          end
      end
  end.

(** The outer [do ... while (!in.eof())] loop, lines 189-525. *)
Fixpoint record_loop (fuel : nat) (pkt_size : Z) (inp : istream)
    (line : list ascii) (mem_space : Z) : flow unit :=
  match fuel with
  | O => OutOfFuel
  | S fuel' =>
      match extract inp line with
      | None => Fault []
      | Some (inp', line) =>
          bind (record_body fuel pkt_size line mem_space)
               (fun '(line', mem_space') =>
                  if eofbit inp' then Next [] tt
                  else record_loop fuel' pkt_size inp' line' mem_space')
      end
  end.

(** What a call of [buildIncFile] does. *)
Inductive result :=
| Returned (out : list item) (err : list diag) (code : Z)
| Crashed (out : list item)
| Diverged.

(** [buildIncFile(in, out, pkt_size)]: [line] is 1024 zero bytes and the
    static [mem_space] is 0 on the first call. *)
Definition buildIncFile (fuel : nat) (input : list ascii) (pkt_size : Z)
  : result :=
  match write [FileHeader]
          (record_loop fuel pkt_size {| chars := input; eofbit := false |}
                       (repeat NUL 1024) 0) with
  | Next out _ => Returned out [] 0
  | Ret out err c => Returned out err c
  | Fault out => Crashed out
  | OutOfFuel => Diverged
  end.

(* ================================================================== *)
(** * srec2inc.cpp: [main] *)

Inductive flag := FLAG_NOT_PRESENT | FLAG_FAILED | FLAG_OK.

Definition flag_ok (f : flag) : bool :=
  match f with FLAG_OK => true | _ => false end.

(** The files [main] can see: the content of each readable file, and
    whether a path can be opened for writing.  Files are told apart by
    the text of their path, and [content] is what they hold when [main]
    starts: that opening a file for output empties it is not recorded. *)
Record fsys := {
  content : list ascii -> option (list ascii);
  creatable : list ascii -> bool
}.

(** The locals of [main]: [f_in] is the content behind the open input
    stream, [f_out] is [f_out.is_open()]. *)
Record cli := {
  packet_size : Z;
  n_flag : flag;
  i_flag : flag;
  o_flag : flag;
  f_in : option (list ascii);
  f_out : bool;
  cli_err : list diag
}.

Definition cli0 : cli :=
  {| packet_size := 18;
     n_flag := FLAG_NOT_PRESENT; i_flag := FLAG_NOT_PRESENT;
     o_flag := FLAG_NOT_PRESENT;
     f_in := None; f_out := false; cli_err := [] |}.

(** How [main] ends. *)
Inductive exit :=
| Exited (status : Z) (out : list item) (err : list diag)
| Killed (out : list item)
| Hung.

Inductive step :=
| Go (st : cli)
| Stop (e : exit).

(** The [case 'N'] arm, lines 70-85. *)
Definition flag_N (st : cli) (arg : list ascii) : cli :=
  let (v, overflow) := atoh W32 (skipn 2 arg) in
  let err := cli_err st ++ (if overflow then [TemplateOverflow] else []) in
  let packet_size := to_int32 v in
  if negb (Z.rem packet_size 3 =? 0) then
    {| packet_size := 18; n_flag := FLAG_FAILED;
       i_flag := i_flag st; o_flag := o_flag st;
       f_in := f_in st; f_out := f_out st;
       cli_err := err ++ [InvalidParameterN] |}
  else if packet_size <? 9 then
    {| packet_size := 18; n_flag := FLAG_OK;
       i_flag := i_flag st; o_flag := o_flag st;
       f_in := f_in st; f_out := f_out st; cli_err := err |}
  else
    {| packet_size := packet_size; n_flag := FLAG_OK;
       i_flag := i_flag st; o_flag := o_flag st;
       f_in := f_in st; f_out := f_out st; cli_err := err |}.

(** The [case 'I'] arm: [open] fails on a stream that is already open and
    on a file that cannot be read. *)
Definition flag_I (fs : fsys) (st : cli) (arg : list ascii) : cli :=
  let path := cstr (skipn 2 arg) in
  match f_in st, content fs path with
  | None, Some text =>
      {| packet_size := packet_size st; n_flag := n_flag st;
         i_flag := FLAG_OK; o_flag := o_flag st;
         f_in := Some text; f_out := f_out st; cli_err := cli_err st |}
  | _, _ =>
      {| packet_size := packet_size st; n_flag := n_flag st;
         i_flag := FLAG_FAILED; o_flag := o_flag st;
         f_in := f_in st; f_out := f_out st;
         cli_err := cli_err st ++ [CouldNotOpenFile path] |}
  end.

(** The [case 'O'] arm. *)
Definition flag_O (fs : fsys) (st : cli) (arg : list ascii) : cli :=
  let path := cstr (skipn 2 arg) in
  if negb (f_out st) && creatable fs path then
    {| packet_size := packet_size st; n_flag := n_flag st;
       i_flag := i_flag st; o_flag := FLAG_OK;
       f_in := f_in st; f_out := true; cli_err := cli_err st |}
  else
    {| packet_size := packet_size st; n_flag := n_flag st;
       i_flag := i_flag st; o_flag := FLAG_FAILED;
       f_in := f_in st; f_out := f_out st;
       cli_err := cli_err st ++ [InvalidParameterO path] |}.

(** The [switch] on the second character of one argument.  The second
    character of a one-character argument is its terminator; an empty
    argument has no second character. *)
Definition handle_arg (fs : fsys) (st : cli) (arg : list ascii) : step :=
  match arg with
  | [] => Stop (Killed [])
  | _ :: rest =>
      let ch := match rest with [] => NUL | c :: _ => c end in
      if (code ch =? 78) || (code ch =? 110) then Go (flag_N st arg)
      else if (code ch =? 73) || (code ch =? 105) then Go (flag_I fs st arg)
      else if (code ch =? 79) || (code ch =? 111) then Go (flag_O fs st arg)
      else Stop (Exited 1 [] (cli_err st ++ [UnknownParameter (cstr rest)]))
  end.

(** The [while (argc-- != 1)] loop over the arguments in the order in
    which it visits them (last argument first). *)
Fixpoint handle_args (fs : fsys) (st : cli) (args : list (list ascii))
  : step :=
  match args with
  | [] => Go st
  | arg :: more =>
      match handle_arg fs st arg with
      | Go st' => handle_args fs st' more
      | Stop e => Stop e
      end
  end.

(** Lines 52-146 of [main]: either the process ends there, or control
    reaches the call of [buildIncFile] with these locals. *)
Definition startup (fs : fsys) (argv : list (list ascii)) : step :=
  match argv with
  | [] => Stop (Killed [])
  | _ :: args =>
      match handle_args fs cli0 (rev args) with
      | Stop e => Stop e
      | Go st =>
          if negb (flag_ok (i_flag st)) then Stop (Exited 1 [] (cli_err st))
          else if flag_ok (o_flag st) then Go st
          else match o_flag st with
               | FLAG_FAILED => Stop (Exited 1 [] (cli_err st))
               | _ =>
                   if creatable fs (txt "default.inc") then Go st
                   else Stop (Exited 1 []
                                (cli_err st ++ [DefaultFileFailed]))
               end
      end
  end.

(** [main]: the value returned by [buildIncFile] is dropped and the
    process returns 0 (lines 148-155). *)
Definition main (fuel : nat) (fs : fsys) (argv : list (list ascii)) : exit :=
  match startup fs argv with
  | Stop e => e
  | Go st =>
      match f_in st with
      | None => Killed []
      | Some input =>
          match buildIncFile fuel input (packet_size st) with
          | Returned out err _ => Exited 0 out (cli_err st ++ err)
          | Crashed out => Killed out
          | Diverged => Hung
          end
      end
  end.

(* ================================================================== *)
(** * Reading the output back *)

(** Value of a text of hex digits, most significant first. *)
Definition digit_of (ch : ascii) : Z :=
  match hex_digit ch with Some d => d | None => 0 end.

(** [value = (value << 4) + digit] over a text, starting from [v]. *)
Definition horner (v : Z) (s : list ascii) : Z :=
  fold_left (fun v ch => v * 16 + digit_of ch) s v.

Definition hex_value (s : list ascii) : Z := horner 0 s.

(** The hex digits at the start of a C string. *)
Fixpoint hex_prefix (s : list ascii) : list ascii :=
  match s with
  | [] => []
  | ch :: rest => if is_hex ch then ch :: hex_prefix rest else []
  end.

(** The decoder as the specification describes it, written from its
    words and not from the code.  The hex digits are listed in the order
    of their values, in lower case and in upper case, independently of
    the three ranges of [hex_digit]; the value of a digit is its place in
    the list. *)
Fixpoint place_in (digits : list ascii) (ch : ascii) (first : Z) : option Z :=
  match digits with
  | [] => None
  | d :: rest =>
      if Ascii.eqb d ch then Some first else place_in rest ch (first + 1)
  end.

Definition spec_digit (ch : ascii) : option Z :=
  match place_in (txt "0123456789abcdef") ch 0 with
  | Some digit => Some digit
  | None => place_in (txt "0123456789ABCDEF") ch 0
  end.

(** The values of the hex digits that start a string, from left to
    right, up to the first character that is not a hex digit. *)
Fixpoint spec_digits (s : list ascii) : list Z :=
  match s with
  | [] => []
  | ch :: rest =>
      match spec_digit ch with
      | Some digit => digit :: spec_digits rest
      | None => []
      end
  end.

(** [value = value * 16 + digit] over the digits, starting from zero. *)
Definition spec_accumulate (digits : list Z) : Z :=
  fold_left (fun value digit => value * 16 + digit) digits 0.

(** The width in bits of the four result types. *)
Definition spec_width (w : width) : nat :=
  match w with W8 => 8 | W16 => 16 | W32 => 32 | W64 => 64 end%nat.

(** The value accumulated from at most [width / 4] digits, and whether
    the overflow diagnostic is due: more hex digits are present. *)
Definition spec_atoh (w : width) (s : list ascii) : Z * bool :=
  let k := (spec_width w / 4)%nat in
  (spec_accumulate (firstn k (spec_digits s)),
   (k <? length (spec_digits s))%nat).

(** A text without its leading '0' characters. *)
Fixpoint strip_zeros (s : list ascii) : list ascii :=
  match s with
  | ch :: rest => if code ch =? 48 then strip_zeros rest else s
  | [] => []
  end.

(** Consecutive pairs of characters: the bytes of a payload text. *)
Fixpoint pairs (s : list ascii) : list (ascii * ascii) :=
  match s with
  | c0 :: c1 :: rest => (c0, c1) :: pairs rest
  | _ => []
  end.

(** All payload bytes of an output, in the order written. *)
Fixpoint all_payload (out : list item) : list (ascii * ascii) :=
  match out with
  | [] => []
  | PayloadByte c0 c1 :: rest => (c0, c1) :: all_payload rest
  | _ :: rest => all_payload rest
  end.

(** The payload bytes at the start of an output, up to the next item of
    another kind. *)
Fixpoint payload_run (out : list item) : list (ascii * ascii) :=
  match out with
  | PayloadByte c0 c1 :: rest => (c0, c1) :: payload_run rest
  | _ => []
  end.

(** One emitted packet: the name of its two declarations, the value of
    the length constant, the word-count byte, the six address characters
    of its header and its payload bytes. *)
Record packet := {
  pk_space : space;
  pk_suffix : list ascii;
  pk_len : Z;
  pk_words : list ascii;
  pk_addr : list ascii;
  pk_payload : list (ascii * ascii)
}.

(** The packets of an output: each starts with a length constant, an
    array opening, the PPP header and the address bytes. *)
Fixpoint packets (out : list item) : list packet :=
  match out with
  | [] => []
  | LenDecl sp suffix n :: rest =>
      match rest with
      | ArrOpen _ _ :: PPPHead _ len :: AddrBytes t0 t1 t2 t3 t4 t5 :: rest' =>
          {| pk_space := sp; pk_suffix := suffix; pk_len := n;
             pk_words := len; pk_addr := [t0; t1; t2; t3; t4; t5];
             pk_payload := payload_run rest' |} :: packets rest'
      | _ => packets rest
      end
  | _ :: rest => packets rest
  end.

(** Number of 24-bit words in the payload of a packet. *)
Definition pk_word_count (p : packet) : Z :=
  Z.of_nat (length (pk_payload p)) / 3.

(** Each packet's header address is the previous one's plus the words
    of the previous payload, starting from address [a] with [n] payload
    bytes already written. *)
Fixpoint chained (a n : Z) (ps : list packet) : Prop :=
  match ps with
  | [] => True
  | p :: ps' =>
      hex_value (pk_addr p) = a + n / 3
      /\ chained (hex_value (pk_addr p))
                 (Z.of_nat (length (pk_payload p))) ps'
  end.

(** The name suffix of a packet is its header address without the
    leading '0' characters. *)
Definition suffix_ok (p : packet) : Prop :=
  pk_suffix p = strip_zeros (pk_addr p).

(** Payload bytes in a full packet: the packet size without the PPP
    header and the address, and the 24-bit words they make. *)
Definition per_packet (pkt_size : Z) : Z := pkt_size - 6.

Definition words_per_packet (pkt_size : Z) : Z := per_packet pkt_size / 3.

(** The text in [tmp_address] is the six-digit rendering of [a]. *)
Definition addr_text (tmp_address : list ascii) (a : Z) : Prop :=
  length tmp_address = 6%nat
  /\ forallb is_hex tmp_address = true
  /\ hex_value tmp_address = a.

(** [ceil(a / b)] *)
Definition ceil_div (a b : Z) : Z := (a + b - 1) / b.

(** The text of an S2 line: type, length field, address, payload and
    whatever follows (checksum, terminator, older bytes of the buffer). *)
Definition s2_line (l0 l1 : ascii) (addr payload rest : list ascii)
  : list ascii :=
  txt "S2" ++ [l0; l1] ++ addr ++ payload ++ rest.

(** The line buffer after [in >> line] stored [text] at its start. *)
Definition buffer (text : list ascii) : list ascii :=
  text ++ NUL :: repeat NUL (1023 - length text).

(** Every packet after the first carries the address of the packet
    before it plus the 24-bit words of that packet's payload. *)
Definition addresses_advance (ps : list packet) : Prop :=
  forall k p q,
    nth_error ps k = Some p -> nth_error ps (S k) = Some q ->
    hex_value (pk_addr q) = hex_value (pk_addr p) + pk_word_count p.

(** The packet size that the [case 'N'] arm leaves for the value [v]
    read from the flag text. *)
Definition accepted_size (v : Z) : Z :=
  if (v mod 3 =? 0) && (9 <=? v) && (v <? 2 ^ 31) then v else 18.

(** Text search, for statements about the rendered file. *)
Fixpoint starts_with (pat text : list ascii) : bool :=
  match pat, text with
  | [], _ => true
  | p :: pat', t :: text' => (code p =? code t) && starts_with pat' text'
  | _ :: _, [] => false
  end.

Fixpoint occurs (pat text : list ascii) : bool :=
  starts_with pat text
  || match text with
     | [] => false
     | _ :: text' => occurs pat text'
     end.

(** An input file of the given lines, each ended by a line feed but
    the last. *)
Fixpoint lines (ls : list string) : list ascii :=
  match ls with
  | [] => []
  | [l] => txt l
  | l :: ls' => txt l ++ LF :: lines ls'
  end.

(** A file system with one readable file, where every path can be
    created. *)
Definition one_file (path : string) (text : list ascii) : fsys :=
  {| content := fun p =>
       if String.eqb (string_of_list_ascii p) path then Some text else None;
     creatable := fun _ => true |}.

(** The input of end-to-end scenario 1. *)
Definition scenario1 : list ascii :=
  lines ["S0030000FC"; "S21500123400010203040506070809A1"; "S804000000FB"]%string.

(** An input whose S2 record comes before any S0 record. *)
Definition unswitched_input : list ascii :=
  lines ["S2080012340102030405A1"; "S804000000FB"]%string.

(** An input with an S2 record of length field 04: the address and the
    checksum, no payload. *)
Definition empty_payload_input : list ascii :=
  lines ["S0030002FA"; "S204001234B5"; "S804000000FB"]%string.

(** The packet size is one that the emitter can work with. *)
Definition size_ok (st : cli) : Prop :=
  packet_size st mod 3 = 0 /\ 9 <= packet_size st.

(* ================================================================== *)
(** * Further readings of the output *)

(** Payload bytes of a packet. *)
Definition pk_size (p : packet) : Z := Z.of_nat (length (pk_payload p)).

(** Every packet but the last is filled to [d] payload bytes; [n] is
    the fill of the packet before the list. *)
Fixpoint full_but_last (d n : Z) (ps : list packet) : Prop :=
  match ps with
  | [] => True
  | p :: ps' => n = d /\ full_but_last d (pk_size p) ps'
  end.

(** What the header of a packet says about its payload: the memory
    space, the length constant (payload and six header bytes) and the
    word-count byte (payload bytes divided by 3, rounded down). *)
Definition header_ok (pkt_size : Z) (sp : space) (p : packet) : Prop :=
  pk_space p = sp
  /\ 1 <= pk_size p <= pkt_size - 6
  /\ pk_len p = pk_size p + 6
  /\ pk_words p = sprintf_X 2 (pk_size p / 3).

(** The memory spaces named by the items of an output. *)
Fixpoint spaces (out : list item) : list space :=
  match out with
  | [] => []
  | LenDecl sp _ _ :: rest => sp :: spaces rest
  | ArrOpen sp _ :: rest => sp :: spaces rest
  | PPPHead sp _ :: rest => sp :: spaces rest
  | _ :: rest => spaces rest
  end.

(** Every length constant is followed by the array of the same name. *)
Fixpoint names_agree (out : list item) : Prop :=
  match out with
  | [] => True
  | LenDecl _ suffix _ :: rest =>
      match rest with
      | ArrOpen _ suffix' :: _ => suffix' = suffix
      | _ => False
      end /\ names_agree rest
  | _ :: rest => names_agree rest
  end.




(** How a block ends and what it wrote, without the value it leaves. *)
Definition forget {A} (k : flow A) : flow unit :=
  match k with
  | Next out _ => Next out tt
  | Ret out err c => Ret out err c
  | Fault out => Fault out
  | OutOfFuel => OutOfFuel
  end.

(* ================================================================== *)
(** * Inputs made of records *)

(** One white-space delimited token of the input, by the branch of the
    record loop that it takes: an S0 line with four characters before the
    two of the memory-space code, an S2 line, or any other text. *)
Inductive entry :=
| Switch (fill : list ascii) (m0 m1 : ascii) (tail : list ascii)
| Data (l0 l1 : ascii) (addr payload sum : list ascii)
| Other (text : list ascii).

Definition entry_text (e : entry) : list ascii :=
  match e with
  | Switch fill m0 m1 tail => txt "S0" ++ fill ++ [m0; m1] ++ tail
  | Data l0 l1 addr payload sum => s2_line l0 l1 addr payload sum
  | Other text => text
  end.

Definition no_space (s : list ascii) : bool :=
  forallb (fun ch => negb (isspace ch)) s.

(** The text starts with 'S' and the character [d]. *)
Definition starts_S (d : ascii) (text : list ascii) : bool :=
  match text with
  | c0 :: c1 :: _ => (code c0 =? 83) && (code c1 =? code d)
  | _ => false
  end.

(** The token is what its constructor says: free of white space; an S2
    line has a hex length field of at least 5 and as many payload bytes,
    in hex digits, as the field announces; any other text is not empty
    and starts with neither "S0" nor "S2". *)
Definition entry_ok (e : entry) : Prop :=
  no_space (entry_text e) = true
  /\ match e with
     | Switch fill _ _ _ => length fill = 4%nat
     | Data l0 l1 addr payload _ =>
         forallb is_hex [l0; l1] = true
         /\ 1 <= hex_value [l0; l1] - 4
         /\ length addr = 6%nat
         /\ forallb is_hex payload = true
         /\ Z.of_nat (length payload) = 2 * (hex_value [l0; l1] - 4)
     | Other text =>
         text <> [] /\ starts_S "0" text = false /\ starts_S "2" text = false
     end.

(** The input text: every token followed by its separator. *)
Fixpoint stream (es : list (entry * list ascii)) : list ascii :=
  match es with
  | [] => []
  | (e, sep) :: more => entry_text e ++ sep ++ stream more
  end.

(** Separators are white space, and not empty between two tokens. *)
Fixpoint seps_ok (es : list (entry * list ascii)) : Prop :=
  match es with
  | [] => True
  | (_, sep) :: more =>
      forallb isspace sep = true
      /\ (more <> [] -> sep <> [])
      /\ seps_ok more
  end.

(** The line buffer after [in >> line] stored [text]. *)
Definition store (text line : list ascii) : list ascii :=
  text ++ NUL :: skipn (S (length text)) line.

(** What the S2 branch writes for a data record met on its own, at the
    start of a fresh line buffer. *)
Definition record_items (pkt_size mem_space : Z) (e : entry) : list item :=
  match emit_record 502 pkt_size mem_space (buffer (entry_text e)) with
  | Next out _ => out
  | _ => []
  end.

(** The conversion, record by record: [room] is the number of bytes
    from [line] to the end of the buffer, [mem_space] the memory space
    in force. *)
Fixpoint convert (pkt_size room mem_space : Z) (es : list (entry * list ascii))
  : flow unit :=
  match es with
  | [] => Next [] tt
  | (e, _) :: more =>
      if room <? Z.of_nat (length (entry_text e)) + 1 then Fault []
      else
        match e with
        | Switch _ m0 m1 _ =>
            convert pkt_size room
              (match sscanf_x [m0; m1] with
               | Some v => v
               | None => mem_space
               end) more
        | Other _ => convert pkt_size room 0 more
        | Data _ _ _ _ _ =>
            match known_space mem_space with
            | None => Ret [] [UnknownMemorySpace] (-1)
            | Some _ =>
                write (record_items pkt_size mem_space e)
                      (convert pkt_size (room - 10) mem_space more)
            end
        end
  end.

(** The result of [buildIncFile] when its body ends as [k]. *)
Definition finish (k : flow unit) : result :=
  match k with
  | Next out _ => Returned out [] 0
  | Ret out err c => Returned out err c
  | Fault out => Crashed out
  | OutOfFuel => Diverged
  end.

(** A line buffer on which the body of the record loop writes nothing
    and goes on, whatever the packet size and the memory space. *)
Definition quiet (line : list ascii) : Prop :=
  forall fuel pkt_size mem_space,
    exists mem_space',
      record_body fuel pkt_size line mem_space = Next [] (line, mem_space').

(** Every token fits between [line] and the end of the buffer, where
    each data record before it has moved [line] on by 10 bytes. *)
Fixpoint fits (room : Z) (es : list (entry * list ascii)) : Prop :=
  match es with
  | [] => True
  | (e, _) :: more =>
      Z.of_nat (length (entry_text e)) + 1 <= room
      /\ fits (match e with
               | Data _ _ _ _ _ => room - 10
               | _ => room
               end) more
  end.

Definition is_data (e : entry) : bool :=
  match e with Data _ _ _ _ _ => true | _ => false end.

(** The memory-space code of an S0 line is not the bare prefix [0x] or
    [0X].  With no digit after the prefix C libraries differ on what
    ["%x"] does: a matching failure for some, the value 0 for others. *)
Definition code_plain (e : entry) : bool :=
  match e with
  | Switch _ m0 m1 _ => negb ((code m0 =? 48) && is_x m1)
  | _ => true
  end.

(** The conversion, record by record, of an input whose tokens all fit
    the line buffer: an S0 line sets the memory space to what [sscanf_s]
    reads (and leaves it when nothing is read), any other token that is
    not an S2 line resets it to 0, an S2 record is converted as it would
    be alone in the space in force, and stops the run with -1 when that
    space is unknown. *)
Fixpoint translate (pkt_size mem_space : Z) (es : list (entry * list ascii))
  : flow unit :=
  match es with
  | [] => Next [] tt
  | (e, _) :: more =>
      match e with
      | Switch _ m0 m1 _ =>
          translate pkt_size
            (match sscanf_x [m0; m1] with
             | Some v => v
             | None => mem_space
             end) more
      | Other _ => translate pkt_size 0 more
      | Data _ _ _ _ _ =>
          match known_space mem_space with
          | None => Ret [] [UnknownMemorySpace] (-1)
          | Some _ =>
              write (record_items pkt_size mem_space e)
                    (translate pkt_size mem_space more)
          end
      end
  end.

(** A small input: a switch to Y space, one data record, an S8 line. *)
Definition sample_entries : list (entry * list ascii) :=
  [ (Switch (txt "0300") "0" "2" (txt "FA"), [LF]);
    (Data "0" "7" (txt "001234") (txt "010203") (txt "A1"), [LF]);
    (Other (txt "S804000000FB"), [LF]) ].

(* ================================================================== *)
(** * The shape of an output *)

(** Where the writer stands in the output file: before the header,
    between two packets, after the length constant of a packet, after the
    opening of its array, after the PPP header, among the bytes. *)
Inductive place :=
| Start
| Outside
| Declared (sp : space) (suffix : list ascii)
| Opened (sp : space)
| Headed
| Body.

(** [out] leads from [s] to [final] through the file header and then
    whole packets: a length constant, the array of the same name and
    memory space, the PPP header of that space, the address bytes, payload
    bytes, the closing. *)
Fixpoint shaped (s : place) (out : list item) (final : place) : Prop :=
  match out with
  | [] => s = final
  | it :: rest =>
      match s, it with
      | Start, FileHeader => shaped Outside rest final
      | Outside, LenDecl sp suffix _ => shaped (Declared sp suffix) rest final
      | Declared sp suffix, ArrOpen sp' suffix' =>
          sp' = sp /\ suffix' = suffix /\ shaped (Opened sp) rest final
      | Opened sp, PPPHead sp' _ => sp' = sp /\ shaped Headed rest final
      | Headed, AddrBytes _ _ _ _ _ _ => shaped Body rest final
      | Body, PayloadByte _ _ => shaped Body rest final
      | Body, ArrClose => shaped Outside rest final
      | _, _ => False
      end
  end.

(** A block that starts at [s] leaves a shaped output: up to [next]
    when it is left at its end, up to [ret] when it returns, which it
    does with -1 and the diagnostic of the unknown memory space. *)
Definition flow_shaped {A} (s : place) (k : flow A) (next ret : place) : Prop :=
  match k with
  | Next out _ => shaped s out next
  | Ret out err c =>
      shaped s out ret /\ err = [UnknownMemorySpace] /\ c = -1
  | Fault out => exists final, shaped s out final
  | OutOfFuel => True
  end.

(* ================================================================== *)
(** * Further readings of the decoder and of the command line *)

(** The upper-case form of a character. *)
Definition to_upper (ch : ascii) : ascii :=
  if (97 <=? code ch) && (code ch <=? 122)
  then ascii_of_N (Z.to_N (code ch - 32))
  else ch.

(** The character that the [switch] of [main] looks at. *)
Definition option_letter (arg : list ascii) : ascii :=
  match arg with
  | _ :: c :: _ => c
  | _ => NUL
  end.

Definition is_N (arg : list ascii) : bool :=
  (code (option_letter arg) =? 78) || (code (option_letter arg) =? 110).

Definition is_I (arg : list ascii) : bool :=
  (code (option_letter arg) =? 73) || (code (option_letter arg) =? 105).

Definition is_O (arg : list ascii) : bool :=
  (code (option_letter arg) =? 79) || (code (option_letter arg) =? 111).

Definition known_option (arg : list ascii) : bool :=
  is_N arg || is_I arg || is_O arg.




(** The locals of [main] that decide whether and what it converts. *)
Definition same_files (st st' : cli) : Prop :=
  i_flag st = i_flag st' /\ o_flag st = o_flag st'
  /\ f_in st = f_in st' /\ f_out st = f_out st'.

(** Two ways for the start of [main] to end that differ at most in the
    packet size and in the messages printed. *)
Definition same_end (x y : step) : Prop :=
  match x, y with
  | Go st, Go st' => same_files st st'
  | Stop (Exited s out _), Stop (Exited s' out' _) => s = s' /\ out = out'
  | Stop (Killed out), Stop (Killed out') => out = out'
  | Stop Hung, Stop Hung => True
  | _, _ => False
  end.


(* ================================================================== *)
(** * Characters *)

(** Case analysis on the comparisons that a character test makes. *)
Ltac char_cases :=
  repeat match goal with
         | |- context [(?a <=? ?b)] => destruct (Z.leb_spec a b)
         | |- context [(?a <? ?b)] => destruct (Z.ltb_spec a b)
         | |- context [(?a =? ?b)] => destruct (Z.eqb_spec a b)
         | H : context [(?a <=? ?b)] |- _ => destruct (Z.leb_spec a b)
         | H : context [(?a <? ?b)] |- _ => destruct (Z.ltb_spec a b)
         | H : context [(?a =? ?b)] |- _ => destruct (Z.eqb_spec a b)
         end;
  simpl in *; try congruence; try lia.

Lemma hex_digit_range ch d : hex_digit ch = Some d -> 0 <= d < 16.
Proof.
  unfold hex_digit. generalize (code ch). intros n H.
  char_cases; inversion H; lia.
Qed.

Lemma digit_of_range ch : 0 <= digit_of ch < 16.
Proof.
  unfold digit_of. destruct (hex_digit ch) eqn:E.
  - eauto using hex_digit_range.
  - lia.
Qed.

Lemma is_hex_digit ch : is_hex ch = true -> hex_digit ch = Some (digit_of ch).
Proof.
  unfold is_hex, digit_of. destruct (hex_digit ch); congruence.
Qed.

(** A hex digit is not a terminator, white space, a sign or an [x]. *)
Lemma is_hex_plain ch :
  is_hex ch = true ->
  is_nul ch = false /\ isspace ch = false /\ is_x ch = false
  /\ (code ch =? 45) = false /\ (code ch =? 43) = false.
Proof.
  unfold is_hex, hex_digit, is_nul, isspace, is_x.
  generalize (code ch). intros n H.
  repeat split; char_cases.
Qed.

Lemma nul_not_hex ch : is_nul ch = true -> hex_digit ch = None.
Proof.
  unfold is_nul, hex_digit. generalize (code ch). intros n H. char_cases.
Qed.

Lemma hex_digit_hex_char d : 0 <= d < 16 -> hex_digit (hex_char d) = Some d.
Proof.
  intros H.
  assert (C : d = 0 \/ d = 1 \/ d = 2 \/ d = 3 \/ d = 4 \/ d = 5 \/ d = 6
              \/ d = 7 \/ d = 8 \/ d = 9 \/ d = 10 \/ d = 11 \/ d = 12
              \/ d = 13 \/ d = 14 \/ d = 15) by lia.
  repeat (destruct C as [C | C]; [subst d; reflexivity | ]).
  subst d; reflexivity.
Qed.

Lemma is_hex_hex_char d : 0 <= d < 16 -> is_hex (hex_char d) = true.
Proof.
  intros H. unfold is_hex. now rewrite hex_digit_hex_char.
Qed.

(* ================================================================== *)
(** * Hex values *)

Lemma horner_app v s t : horner v (s ++ t) = horner (horner v s) t.
Proof. apply fold_left_app. Qed.

Lemma horner_bound s : forall v, 0 <= v -> 0 <= horner v s < (v + 1) * 16 ^ Z.of_nat (length s).
Proof.
  induction s as [| ch s IH]; intros v Hv.
  - simpl. lia.
  - cbn [horner fold_left length]. fold (horner (v * 16 + digit_of ch) s).
    pose proof (digit_of_range ch) as Hd.
    specialize (IH (v * 16 + digit_of ch) ltac:(lia)).
    rewrite Nat2Z.inj_succ, Z.pow_succ_r by lia.
    assert (0 < 16 ^ Z.of_nat (length s)) by (apply Z.pow_pos_nonneg; lia).
    nia.
Qed.

Lemma hex_value_bound s : 0 <= hex_value s < 16 ^ Z.of_nat (length s).
Proof.
  pose proof (horner_bound s 0 ltac:(lia)) as H. unfold hex_value. lia.
Qed.

Lemma hex_value_snoc s ch : hex_value (s ++ [ch]) = hex_value s * 16 + digit_of ch.
Proof. unfold hex_value. now rewrite horner_app. Qed.

(* ================================================================== *)
(** * atoh *)

Lemma shiftl4 v : Z.shiftl v 4 = v * 16.
Proof. rewrite Z.shiftl_mul_pow2 by lia. reflexivity. Qed.

(** The loop consumes at most [bail] digits of the hex prefix and never
    wraps while the value read so far leaves room for them. *)
Lemma atoh_loop_spec w s :
  forall value bail,
    0 <= bail -> 0 <= value ->
    (value + 1) * 16 ^ bail <= 2 ^ bits w ->
    atoh_loop w s value bail
    = (horner value (firstn (Z.to_nat bail) (hex_prefix s)),
       (Z.to_nat bail <? length (hex_prefix s))%nat).
Proof.
  induction s as [| ch s IH]; intros value bail Hb Hv Hroom.
  - simpl. rewrite firstn_nil. reflexivity.
  - cbn [atoh_loop hex_prefix]. unfold is_hex.
    destruct (is_nul ch) eqn:En.
    { rewrite (nul_not_hex _ En). rewrite firstn_nil. reflexivity. }
    destruct (hex_digit ch) as [digit |] eqn:Ed.
    2:{ rewrite firstn_nil. reflexivity. }
    destruct (Z.eqb_spec bail 0) as [-> | Hnz].
    { reflexivity. }
    pose proof (hex_digit_range _ _ Ed) as Hd.
    assert (Hpow : 16 ^ bail = 16 * 16 ^ (bail - 1)).
    { rewrite <- Z.pow_succ_r by lia. f_equal. lia. }
    assert (Hpos : 0 < 16 ^ (bail - 1)) by (apply Z.pow_pos_nonneg; lia).
    assert (Hfit : 0 <= value * 16 + digit < 2 ^ bits w) by nia.
    unfold wrap. rewrite shiftl4, Z.mod_small by exact Hfit.
    rewrite IH by nia.
    replace (Z.to_nat bail) with (S (Z.to_nat (bail - 1))) by lia.
    cbn [firstn horner fold_left length]. unfold digit_of at 2. rewrite Ed.
    reflexivity.
Qed.

Lemma atoh_spec w s :
  atoh w s
  = (hex_value (firstn (Z.to_nat (bits w / 4)) (hex_prefix s)),
     (Z.to_nat (bits w / 4) <? length (hex_prefix s))%nat).
Proof.
  unfold atoh, hex_value.
  replace (bits w / 4) with (Z.shiftl (sizeof w) 1) by (destruct w; reflexivity).
  apply atoh_loop_spec; destruct w; cbn; lia.
Qed.

Lemma spec_digit_hex_digit ch : spec_digit ch = hex_digit ch.
Proof.
  destruct ch as [b0 b1 b2 b3 b4 b5 b6 b7].
  destruct b0, b1, b2, b3, b4, b5, b6, b7; reflexivity.
Qed.

Lemma spec_digits_prefix s : spec_digits s = map digit_of (hex_prefix s).
Proof.
  induction s as [| ch s IH]; [reflexivity |].
  cbn [spec_digits hex_prefix]. rewrite spec_digit_hex_digit.
  unfold is_hex. destruct (hex_digit ch) eqn:E; [| reflexivity].
  cbn [map]. f_equal; [| exact IH].
  unfold digit_of. now rewrite E.
Qed.

Lemma spec_accumulate_value s : spec_accumulate (map digit_of s) = hex_value s.
Proof.
  unfold spec_accumulate, hex_value, horner. generalize 0.
  induction s as [| ch s IH]; intros v; [reflexivity |].
  cbn [map fold_left]. apply IH.
Qed.

Lemma atoh_spec_atoh w s : atoh w s = spec_atoh w s.
Proof.
  rewrite atoh_spec. unfold spec_atoh.
  replace (Z.to_nat (bits w / 4)) with (spec_width w / 4)%nat
    by (destruct w; reflexivity).
  rewrite spec_digits_prefix, length_map, firstn_map.
  now rewrite spec_accumulate_value.
Qed.

Lemma spec_digits_app t u :
  Forall (fun c => spec_digit c <> None) t ->
  spec_digits (t ++ u) = spec_digits t ++ spec_digits u.
Proof.
  induction 1 as [| c t Hc _ IH]; [reflexivity |].
  cbn [app spec_digits]. destruct (spec_digit c); [| contradiction].
  now rewrite IH.
Qed.

Lemma spec_digits_length t :
  Forall (fun c => spec_digit c <> None) t ->
  length (spec_digits t) = length t.
Proof.
  induction 1 as [| c t Hc _ IH]; [reflexivity |].
  cbn [spec_digits]. destruct (spec_digit c); [| contradiction].
  cbn [length]. now rewrite IH.
Qed.

(** C6. The hex decoder never fails: for each of the four widths and
    every string it returns what the specification describes.  It scans
    the hex digits 0-9, a-f, A-F from left to right, accumulating
    [value = value * 16 + digit]; it stops at the first character that is
    not one of them and returns the value accumulated so far; it returns
    zero for an empty string and for one that starts with another
    character; and when more than [width / 4] hex digits are present it
    returns the value of the first [width / 4] and prints the overflow
    diagnostic. *)
Theorem atoh_never_fails :
  forall (w : width) (s : list ascii),
    let k := (spec_width w / 4)%nat in
    atoh w s = spec_atoh w s
    /\ (forall t ch u,
           Forall (fun c => spec_digit c <> None) t ->
           spec_digit ch = None ->
           (length t <= k)%nat ->
           atoh w (t ++ ch :: u) = (spec_accumulate (spec_digits t), false))
    /\ atoh w [] = (0, false)
    /\ (forall ch u, spec_digit ch = None -> atoh w (ch :: u) = (0, false))
    /\ (forall t u,
           Forall (fun c => spec_digit c <> None) t ->
           (k < length t)%nat ->
           atoh w (t ++ u)
           = (spec_accumulate (firstn k (spec_digits t)), true))
    /\ atoh W8 (txt "1fZ9") = (31, false)
    /\ atoh W8 (txt "ABC") = (171, true)
    /\ atoh W16 (txt "ABC") = (2748, false)
    /\ atoh W32 (txt "12") = (18, false).
Proof.
  intros w s k.
  refine (conj (atoh_spec_atoh w s)
            (conj _ (conj _ (conj _ (conj _
               (conj eq_refl (conj eq_refl (conj eq_refl eq_refl)))))))).
  - intros t ch u Ht Hch Hlen. rewrite atoh_spec_atoh. unfold spec_atoh.
    fold k. rewrite (spec_digits_app t (ch :: u) Ht).
    cbn [spec_digits]. rewrite Hch, app_nil_r.
    pose proof (spec_digits_length t Ht) as Hl.
    rewrite firstn_all2 by lia. f_equal. apply Nat.ltb_ge. lia.
  - rewrite atoh_spec_atoh. unfold spec_atoh. cbn [spec_digits length].
    rewrite firstn_nil. reflexivity.
  - intros ch u Hch. rewrite atoh_spec_atoh. unfold spec_atoh.
    cbn [spec_digits]. rewrite Hch. cbn [length].
    rewrite firstn_nil. reflexivity.
  - intros t u Ht Hlen. rewrite atoh_spec_atoh. unfold spec_atoh. fold k.
    rewrite (spec_digits_app t u Ht).
    pose proof (spec_digits_length t Ht) as Hl.
    rewrite firstn_app.
    replace (k - length (spec_digits t))%nat with 0%nat by lia.
    rewrite firstn_O, app_nil_r. f_equal.
    apply Nat.ltb_lt. rewrite length_app. lia.
Qed.

Lemma cstr_hex s : forallb is_hex s = true -> cstr s = s.
Proof.
  induction s as [| ch s IH]; simpl; [reflexivity |].
  intros H. apply andb_true_iff in H as [H1 H2].
  destruct (is_hex_plain _ H1) as [-> _]. f_equal. auto.
Qed.

Lemma scan_hex_all s :
  forall a, forallb is_hex s = true -> scan_hex s (Some a) = Some (horner a s).
Proof.
  induction s as [| ch s IH]; simpl; intros a H; [reflexivity |].
  apply andb_true_iff in H as [H1 H2].
  rewrite (is_hex_digit _ H1). now rewrite IH.
Qed.

Lemma scan_hex_start s :
  forallb is_hex s = true -> s <> [] -> scan_hex s None = Some (hex_value s).
Proof.
  destruct s as [| ch s]; [congruence |]. simpl. intros H _.
  apply andb_true_iff in H as [H1 H2].
  rewrite (is_hex_digit _ H1). now rewrite scan_hex_all.
Qed.

Lemma to_int32_small v : 0 <= v < 2 ^ 31 -> to_int32 v = v.
Proof.
  intros H. unfold to_int32. rewrite Z.mod_small by lia.
  destruct (Z.ltb_spec v (2 ^ 31)); lia.
Qed.

(** Reading back a text of one to seven hex digits. *)
Lemma sscanf_hex s :
  forallb is_hex s = true -> s <> [] -> (length s <= 7)%nat ->
  sscanf_x s = Some (hex_value s).
Proof.
  intros Hs Hne Hlen. unfold sscanf_x. rewrite (cstr_hex _ Hs).
  pose proof (scan_hex_start s Hs Hne) as Hscan.
  assert (Hv : to_int32 (hex_value s) = hex_value s).
  { apply to_int32_small. pose proof (hex_value_bound s) as Hb.
    assert (16 ^ Z.of_nat (length s) <= 16 ^ 7)
      by (apply Z.pow_le_mono_r; lia).
    change (2 ^ 31) with (8 * 16 ^ 7). lia. }
  destruct s as [| ch s]; [congruence |].
  simpl in Hs. apply andb_true_iff in Hs as [H1 H2].
  destruct (is_hex_plain _ H1) as (_ & Hsp & _ & Hm & Hp).
  cbn [skip_ws]. rewrite Hsp, Hm, Hp.
  assert (Hu : scan_unsigned (ch :: s) = scan_hex (ch :: s) None).
  { unfold scan_unsigned. destruct s as [| x s]; [reflexivity |].
    simpl in H2. apply andb_true_iff in H2 as [H2 _].
    destruct (is_hex_plain _ H2) as (_ & _ & -> & _).
    now rewrite andb_false_r. }
  rewrite Hu, Hscan. simpl. now rewrite Hv.
Qed.

Lemma scanned_addr tmp a : addr_text tmp a -> scanned tmp = a.
Proof.
  intros (Hlen & Hhex & Hval). unfold scanned.
  rewrite sscanf_hex; auto.
  - destruct tmp; [discriminate | congruence].
  - lia.
Qed.

Lemma hex_digits_length k : forall u, length (hex_digits k u) = k.
Proof.
  induction k as [| k IH]; intros u; simpl; [reflexivity |].
  rewrite length_app, IH. simpl. lia.
Qed.

Lemma hex_digits_hex k : forall u, forallb is_hex (hex_digits k u) = true.
Proof.
  induction k as [| k IH]; intros u; simpl; [reflexivity |].
  rewrite forallb_app, IH. simpl.
  rewrite is_hex_hex_char; [reflexivity |].
  apply Z.mod_pos_bound. lia.
Qed.

Lemma hex_digits_value k :
  forall u, 0 <= u -> hex_value (hex_digits k u) = u mod 16 ^ Z.of_nat k.
Proof.
  induction k as [| k IH]; intros u Hu.
  - simpl. now rewrite Z.mod_1_r.
  - cbn [hex_digits]. rewrite hex_value_snoc, IH
      by (apply Z.div_pos; lia).
    unfold digit_of. rewrite hex_digit_hex_char by (apply Z.mod_pos_bound; lia).
    rewrite Nat2Z.inj_succ, Z.pow_succ_r by lia.
    assert (Hp : 0 < 16 ^ Z.of_nat k) by (apply Z.pow_pos_nonneg; lia).
    rewrite (Z.rem_mul_r u 16 (16 ^ Z.of_nat k)) by lia. ring.
Qed.

Lemma ndigits_le fuel :
  forall k u, 0 <= u < 16 ^ Z.of_nat k -> (1 <= k)%nat ->
              (ndigits fuel u <= k)%nat.
Proof.
  induction fuel as [| f IH]; intros k u Hu Hk; simpl; [lia |].
  destruct (Z.ltb_spec u 16); [lia |].
  destruct k as [| k]; [lia |].
  rewrite Nat2Z.inj_succ, Z.pow_succ_r in Hu by lia.
  assert (Hq : 0 <= u / 16 < 16 ^ Z.of_nat k).
  { split; [apply Z.div_pos; lia | apply Z.div_lt_upper_bound; lia]. }
  destruct k as [| k]; [simpl in Hq; lia |].
  specialize (IH (S k) (u / 16) Hq ltac:(lia)). lia.
Qed.

(** ["%06X"] of an address below 2^24 is its six-digit text. *)
Lemma sprintf_addr a : 0 <= a < 2 ^ 24 -> addr_text (sprintf_X 6 a) a.
Proof.
  intros Ha. unfold sprintf_X.
  rewrite (Z.mod_small a (2 ^ 32)) by lia.
  assert (Hn : (ndigits 8 a <= 6)%nat)
    by (apply ndigits_le; [change (16 ^ Z.of_nat 6) with (2 ^ 24) |]; lia).
  rewrite Nat.max_l by exact Hn.
  refine (conj (hex_digits_length 6 a) (conj (hex_digits_hex 6 a) _)).
  rewrite hex_digits_value by lia.
  apply Z.mod_small. change (16 ^ Z.of_nat 6) with (2 ^ 24). lia.
Qed.

Lemma leading_zeros_nonneg k : forall s, 0 <= leading_zeros k s.
Proof.
  induction k as [| k IH]; intros [| ch s]; cbn [leading_zeros]; try lia.
  destruct (code ch =? 48); [| lia]. specialize (IH s). lia.
Qed.

(** On a text without terminator the pointer [tmp_address + offset_cnt]
    names the text without its leading zeros. *)
Lemma name_suffix_strip s :
  forall k, forallb is_hex s = true -> (length s <= k)%nat ->
            name_suffix s (leading_zeros k s) = strip_zeros s.
Proof.
  unfold name_suffix.
  induction s as [| ch s IH]; intros k Hs Hk.
  - destruct k; reflexivity.
  - simpl in Hs, Hk. apply andb_true_iff in Hs as [H1 H2].
    destruct k as [| k]; [lia |]. cbn [leading_zeros strip_zeros].
    destruct (code ch =? 48).
    + pose proof (leading_zeros_nonneg k s) as Hz.
      replace (Z.to_nat (1 + leading_zeros k s))
        with (S (Z.to_nat (leading_zeros k s))) by lia.
      cbn [skipn]. apply IH; [assumption | lia].
    + cbn [Z.to_nat skipn]. apply cstr_hex. simpl. now rewrite H1.
Qed.

Lemma addr_bytes_text tmp a :
  addr_text tmp a ->
  exists t0 t1 t2 t3 t4 t5,
    tmp = [t0; t1; t2; t3; t4; t5]
    /\ addr_bytes tmp = AddrBytes t0 t1 t2 t3 t4 t5.
Proof.
  intros (Hlen & _).
  do 6 (destruct tmp as [| ? tmp]; [discriminate |]).
  destruct tmp; [| discriminate]. do 6 eexists. split; reflexivity.
Qed.

(* ================================================================== *)
(** * Buffers *)

Lemma skipn_at {A} (l : list A) :
  forall n c t, skipn n l = c :: t -> nth_error l n = Some c /\ skipn (S n) l = t.
Proof.
  induction l as [| x l IH]; intros n c t H.
  - rewrite skipn_nil in H. discriminate.
  - destruct n as [| n].
    + simpl in H. inversion H. split; reflexivity.
    + simpl in H. apply IH in H. exact H.
Qed.

Lemma at_skipn line off c0 c1 t :
  0 <= off ->
  skipn (Z.to_nat off) line = c0 :: c1 :: t ->
  at_ line off = Some c0 /\ at_ line (off + 1) = Some c1
  /\ skipn (Z.to_nat (off + 2)) line = t.
Proof.
  intros Hoff H. unfold at_.
  destruct (Z.ltb_spec off 0); [lia |].
  destruct (Z.ltb_spec (off + 1) 0); [lia |].
  apply skipn_at in H as [Hc0 Hs]. apply skipn_at in Hs as [Hc1 Hs].
  replace (Z.to_nat (off + 1)) with (S (Z.to_nat off)) by lia.
  replace (Z.to_nat (off + 2)) with (S (S (Z.to_nat off))) by lia.
  auto.
Qed.

(* ================================================================== *)
(** * The payload loop *)

Section PayloadLoop.

Variables (pkt_size mem_space : Z) (sp : space) (line : list ascii).
Hypothesis Hspace : known_space mem_space = Some sp.
Hypothesis Hsize : 6 < pkt_size.

(** One iteration that writes a byte. *)
Lemma payload_loop_write fuel w r off tmp c0 c1 :
  w + 6 < pkt_size ->
  at_ line off = Some c0 -> at_ line (off + 1) = Some c1 ->
  payload_loop (S fuel) pkt_size mem_space line w r off tmp
  = write [PayloadByte c0 c1]
      (if r - 1 =? 0 then Next [] tt
       else payload_loop fuel pkt_size mem_space line
              (w + 1) (r - 1) (off + 2) tmp).
Proof.
  intros Hw H0 H1. cbn [payload_loop].
  destruct (Z.ltb_spec (w + 6) pkt_size); [| lia].
  now rewrite H0, H1.
Qed.

(** One iteration that closes a full packet and opens the next one. *)
Lemma payload_loop_next fuel w r off tmp :
  pkt_size <= w + 6 -> r <> 0 ->
  let tmp' := sprintf_X 6 (scanned tmp + Z.quot w 3) in
  payload_loop (S fuel) pkt_size mem_space line w r off tmp
  = write (ArrClose
           :: declare sp (name_suffix tmp' (leading_zeros 6 tmp'))
                      r pkt_size
           ++ [PPPHead sp
                 (if r + 6 <? pkt_size then sprintf_X 2 (Z.quot r 3)
                  else sprintf_X 2 (Z.quot (pkt_size - 6) 3));
               addr_bytes tmp'])
      (payload_loop fuel pkt_size mem_space line 0 r off tmp').
Proof.
  intros Hw Hr tmp'. cbn [payload_loop].
  destruct (Z.ltb_spec (w + 6) pkt_size); [lia |].
  rewrite Hspace. fold tmp'.
  destruct (Z.eqb_spec r 0); [contradiction |].
  destruct (payload_loop fuel pkt_size mem_space line 0 r off tmp');
    reflexivity.
Qed.

(** What the loop writes for a record with [r >= 1] payload bytes left,
    [w] of them already in the current packet, whose text [body] is in
    the buffer at [line + off]: it ends; it writes the bytes of [body]
    in order, each in the current packet or in a later one; it opens
    [(w + r - 1) / (pkt_size - 6)] further packets; the current packet
    receives [min r (pkt_size - 6 - w)] more bytes; and while the
    addresses stay below 2^24 each further packet carries the address of
    its predecessor plus the word count of the predecessor, under the
    name made of that address without leading zeros. *)
Lemma payload_loop_spec :
  forall fuel w r off tmp body post,
    1 <= r -> 0 <= w <= per_packet pkt_size -> 0 <= off ->
    skipn (Z.to_nat off) line = body ++ post ->
    Z.of_nat (length body) = 2 * r ->
    2 * r <= Z.of_nat fuel + (if w <? per_packet pkt_size then 1 else 0) ->
    exists out,
      payload_loop fuel pkt_size mem_space line w r off tmp = Next out tt
      /\ all_payload out = pairs body
      /\ payload_run out ++ concat (map pk_payload (packets out))
         = all_payload out
      /\ Z.of_nat (length (packets out)) = (w + r - 1) / per_packet pkt_size
      /\ Z.of_nat (length (payload_run out))
         = Z.min r (per_packet pkt_size - w)
      /\ (forall a,
             addr_text tmp a ->
             a + (w + r - 1) / per_packet pkt_size * words_per_packet pkt_size
             < 2 ^ 24 ->
             chained a (w + Z.of_nat (length (payload_run out)))
                     (packets out)
             /\ Forall suffix_ok (packets out)).
Proof.
  unfold words_per_packet.
  assert (Hd : per_packet pkt_size = pkt_size - 6) by reflexivity.
  revert Hd. generalize (per_packet pkt_size). intros d Hd.
  induction fuel as [| fuel IH]; intros w r off tmp body post
    Hr Hw Hoff Hbuf Hlen Hfuel.
  { destruct (w <? d); lia. }
  destruct (Z.ltb_spec w d) as [Hlt | Hge].
  - (* a byte is written *)
    destruct body as [| c0 [| c1 body']]; cbn [length] in Hlen; try lia.
    cbn [app] in Hbuf.
    destruct (at_skipn _ _ _ _ _ Hoff Hbuf) as (H0 & H1 & Hbuf').
    rewrite (payload_loop_write fuel w r off tmp c0 c1)
      by (assumption || lia).
    assert (Hsame : (w + r - 1) / d = (w + 1 + (r - 1) - 1) / d)
      by (f_equal; lia).
    destruct (Z.eqb_spec (r - 1) 0) as [Hlast | Hmore].
    + (* the last byte of the record *)
      assert (r = 1) by lia. subst r.
      destruct body'; [| cbn [length] in Hlen; lia].
      exists [PayloadByte c0 c1]. cbn [write app].
      replace (w + 1 - 1) with w by lia.
      rewrite Z.div_small by lia.
      refine (conj eq_refl (conj eq_refl (conj eq_refl (conj eq_refl
               (conj _ _))))).
      * cbn [payload_run length]. lia.
      * intros a _ _. cbn [packets chained]. auto.
    + destruct (IH (w + 1) (r - 1) (off + 2) tmp body' post)
        as (out & Hrun & Hall & Hsum & Hcount & Hfirst & Haddr);
        try lia.
      { assumption. }
      { destruct (Z.ltb_spec (w + 1) d); lia. }
      exists (PayloadByte c0 c1 :: out). rewrite Hrun. cbn [write app].
      refine (conj eq_refl (conj _ (conj _ (conj _ (conj _ _))))).
      * cbn [all_payload pairs]. now rewrite Hall.
      * cbn [packets payload_run all_payload app]. now rewrite Hsum.
      * cbn [packets]. rewrite Hcount. symmetry. exact Hsame.
      * cbn [payload_run length]. rewrite Nat2Z.inj_succ, Hfirst. lia.
      * intros a Ha Hbound. cbn [packets payload_run length].
        rewrite <- Hsame in Haddr.
        destruct (Haddr a Ha Hbound) as [Hch Hsuf].
        split; [| exact Hsuf].
        replace (w + Z.of_nat (S (length (payload_run out))))
          with (w + 1 + Z.of_nat (length (payload_run out))) by lia.
        exact Hch.
  - (* the current packet is full *)
    assert (w = d) by lia. subst w.
    rewrite payload_loop_next by lia.
    set (tmp' := sprintf_X 6 (scanned tmp + Z.quot d 3)).
    destruct (IH 0 r off tmp' body post)
      as (out & Hrun & Hall & Hsum & Hcount & Hfirst & Haddr); try lia.
    { assumption. }
    { destruct (Z.ltb_spec 0 d); lia. }
    assert (Hdiv : (d + r - 1) / d = (0 + r - 1) / d + 1).
    { replace (d + r - 1) with (0 + r - 1 + 1 * d) by lia.
      apply Z.div_add. lia. }
    rewrite Hrun. unfold declare, addr_bytes. cbn [write app].
    eexists. split; [reflexivity |].
    refine (conj _ (conj _ (conj _ (conj _ _)))).
    + cbn [all_payload]. exact Hall.
    + cbn [packets payload_run all_payload map concat pk_payload app].
      exact Hsum.
    + cbn [packets length]. rewrite Nat2Z.inj_succ, Hcount, Hdiv. lia.
    + cbn [payload_run length]. lia.
    + intros a Ha Hbound. rewrite Hdiv in Hbound.
      assert (Hq : Z.quot d 3 = d / 3) by (apply Z.quot_div_nonneg; lia).
      assert (Hwords : 0 <= d / 3) by (apply Z.div_pos; lia).
      assert (Hcnt : 0 <= (0 + r - 1) / d) by (apply Z.div_pos; lia).
      pose proof (hex_value_bound tmp) as Hav.
      destruct Ha as (Hl & Hh & Hv). rewrite Hv in Hav.
      assert (Ha' : addr_text tmp' (a + d / 3)).
      { unfold tmp'.
        rewrite (scanned_addr tmp a) by (repeat split; assumption).
        rewrite Hq. apply sprintf_addr. nia. }
      destruct (Haddr (a + d / 3) Ha') as [Hch Hsuf]; [nia |].
      destruct (addr_bytes_text _ _ Ha')
        as (t0 & t1 & t2 & t3 & t4 & t5 & Htmp & _).
      cbn [packets payload_run length chained pk_addr pk_payload].
      rewrite Htmp. cbn [nth]. rewrite <- Htmp.
      destruct Ha' as (Hl' & Hh' & Hv'). rewrite Hv'.
      rewrite Z.add_0_r.
      split; [split; [reflexivity | exact Hch] |].
      constructor; [| exact Hsuf].
      unfold suffix_ok. cbn [pk_suffix pk_addr].
      apply name_suffix_strip; [assumption | lia].
Qed.

End PayloadLoop.

(* ================================================================== *)
(** * Reading packets back from an output *)

Lemma all_payload_app out1 out2 :
  all_payload (out1 ++ out2) = all_payload out1 ++ all_payload out2.
Proof.
  induction out1 as [| it out1 IH]; [reflexivity |].
  destruct it; cbn [app all_payload]; rewrite IH; reflexivity.
Qed.

Lemma payload_run_close out : payload_run (out ++ [ArrClose]) = payload_run out.
Proof.
  induction out as [| it out IH]; [reflexivity |].
  destruct it; cbn [app payload_run]; try reflexivity. now rewrite IH.
Qed.

Lemma packets_close_bounded n :
  forall out, (length out <= n)%nat -> packets (out ++ [ArrClose]) = packets out.
Proof.
  induction n as [| n IH]; intros out Hn.
  - destruct out; [reflexivity | simpl in Hn; lia].
  - destruct out as [| it out]; [reflexivity |].
    cbn [length] in Hn.
    assert (Hout : packets (out ++ [ArrClose]) = packets out)
      by (apply IH; lia).
    destruct it; cbn [app packets]; try exact Hout.
    destruct out as [| [] out]; try exact Hout.
    destruct out as [| [] out]; try exact Hout.
    destruct out as [| [] out]; try exact Hout.
    cbn [app]. rewrite payload_run_close. f_equal.
    apply IH. cbn [length] in Hn. lia.
Qed.

Lemma packets_close out : packets (out ++ [ArrClose]) = packets out.
Proof. apply (packets_close_bounded (length out)). lia. Qed.

(** In a chain every packet's address is that of the packet before it
    plus the words of that packet. *)
Lemma chained_consecutive ps :
  forall a n, chained a n ps ->
  forall k p q, nth_error ps k = Some p -> nth_error ps (S k) = Some q ->
                hex_value (pk_addr q) = hex_value (pk_addr p) + pk_word_count p.
Proof.
  induction ps as [| p0 ps IH]; intros a n Hch k p q Hp Hq.
  - destruct k; discriminate.
  - destruct Hch as [_ Hch]. destruct k as [| k].
    + simpl in Hp, Hq. inversion Hp; subst p0.
      destruct ps as [| q0 ps]; [discriminate |].
      simpl in Hq. inversion Hq; subst q0. exact (proj1 Hch).
    + simpl in Hp. exact (IH _ _ Hch k p q Hp Hq).
Qed.

(* ================================================================== *)
(** * Emission of one S2 record *)

(** The S2 branch on a line that holds the length field and the
    address. *)
Lemma emit_record_s2 fuel pkt_size mem_space l0 l1 t0 t1 t2 t3 t4 t5
      payload rest :
  emit_record fuel pkt_size mem_space
    (s2_line l0 l1 [t0; t1; t2; t3; t4; t5] payload rest)
  = let rec_len := scanned [l0; l1] - 4 in
    let tmp := [t0; t1; t2; t3; t4; t5] in
    match known_space mem_space with
    | None => Ret [] [UnknownMemorySpace] (-1)
    | Some sp =>
        write (declare sp (name_suffix tmp (leading_zeros 6 tmp))
                       rec_len pkt_size)
          (write [PPPHead sp
                    (if rec_len + 6 <=? pkt_size
                     then sprintf_X 2 (Z.quot rec_len 3)
                     else sprintf_X 2 (Z.quot (pkt_size - 6) 3));
                  addr_bytes tmp]
             (bind (payload_loop fuel pkt_size mem_space (payload ++ rest)
                                 0 rec_len 0 tmp)
                   (fun _ => Next [ArrClose] (payload ++ rest))))
    end.
Proof. reflexivity. Qed.

(** The emission of a record whose length field reads [l + 4] with
    [l >= 1] and whose [l] payload bytes are in the buffer: it ends with
    [line] advanced behind the address, it writes the payload in order
    in [ceil(l / (pkt_size - 6))] packets, the first of them under the
    address of the record. *)
Lemma emit_record_spec fuel pkt_size mem_space sp l0 l1 addr payload rest l :
  known_space mem_space = Some sp ->
  6 < pkt_size ->
  forallb is_hex [l0; l1] = true ->
  hex_value [l0; l1] = l + 4 ->
  1 <= l ->
  length addr = 6%nat ->
  Z.of_nat (length payload) = 2 * l ->
  2 * l <= Z.of_nat fuel ->
  exists out,
    emit_record fuel pkt_size mem_space (s2_line l0 l1 addr payload rest)
    = Next out (payload ++ rest)
    /\ concat (map pk_payload (packets out)) = pairs payload
    /\ Z.of_nat (length (packets out)) = 1 + (l - 1) / (pkt_size - 6)
    /\ (exists first more,
           packets out = first :: more
           /\ pk_addr first = addr
           /\ pk_suffix first = name_suffix addr (leading_zeros 6 addr)
           /\ Z.of_nat (length (pk_payload first)) = Z.min l (pkt_size - 6))
    /\ (forall a,
           addr_text addr a ->
           a + (l - 1) / (pkt_size - 6) * ((pkt_size - 6) / 3) < 2 ^ 24 ->
           chained a 0 (packets out) /\ Forall suffix_ok (packets out)).
Proof.
  intros Hsp Hsize Hlen Hval Hl Haddr Hpay Hfuel.
  do 6 (destruct addr as [| ? addr]; [discriminate |]).
  destruct addr; [| discriminate].
  pose proof (emit_record_s2 fuel pkt_size mem_space l0 l1
                a a0 a1 a2 a3 a4 payload rest) as E.
  cbv zeta in E.
  assert (Hscan : scanned [l0; l1] - 4 = l).
  { unfold scanned.
    rewrite sscanf_hex by (assumption || discriminate || (simpl; lia)). lia. }
  rewrite Hscan, Hsp in E.
  set (tmp := [a; a0; a1; a2; a3; a4]) in *.
  destruct (payload_loop_spec pkt_size mem_space sp (payload ++ rest)
              Hsp Hsize fuel 0 l 0 tmp payload rest)
    as (out & Hrun & Hall & Hsum & Hcount & Hfirst & Hchain); try lia.
  { unfold per_packet. lia. }
  { reflexivity. }
  { unfold per_packet. destruct (Z.ltb_spec 0 (pkt_size - 6)); lia. }
  unfold words_per_packet, per_packet in *.
  rewrite Hrun in E. unfold declare, addr_bytes, tmp in E.
  cbn [nth write bind app] in E.
  match type of E with _ = Next ?o _ => exists o end.
  split; [exact E |]. clear E.
  rewrite Z.sub_0_r, Z.add_0_l in *.
  refine (conj _ (conj _ (conj _ _))).
  - cbn [packets]. rewrite packets_close, payload_run_close.
    cbn [map concat pk_payload]. now rewrite Hsum.
  - cbn [packets length]. rewrite packets_close, Nat2Z.inj_succ, Hcount. lia.
  - cbn [packets]. rewrite packets_close, payload_run_close.
    do 2 eexists. split; [reflexivity |].
    cbn [pk_addr pk_suffix pk_payload]. auto.
  - intros v Hv Hbound. cbn [packets]. rewrite packets_close, payload_run_close.
    destruct (Hchain v Hv Hbound) as [Hch Hsuf].
    cbn [chained pk_addr pk_payload pk_suffix].
    destruct Hv as (Hl6 & Hhex & Hv).
    fold tmp. rewrite Hv. split.
    + split; [rewrite Z.add_0_r; reflexivity |].
      rewrite Z.add_0_l in Hch. exact Hch.
    + constructor; [| exact Hsuf].
      unfold suffix_ok. cbn [pk_suffix pk_addr].
      apply name_suffix_strip; [assumption | simpl; lia].
Qed.

(* ================================================================== *)
(** * Records without payload *)

Lemma stuck_write {A} items (k : flow A) : stuck k -> stuck (write items k).
Proof. destruct k; simpl; tauto. Qed.

Lemma stuck_bind {A B} (m : flow A) (k : A -> flow B) : stuck m -> stuck (bind m k).
Proof. destruct m; simpl; tauto. Qed.

(** Once [rec_len] is below zero, or zero before a write, the exit test
    [rec_len != 0] never fails again: the loop runs until it reads
    outside the buffer. *)
Lemma payload_loop_runaway pkt_size mem_space sp line :
  known_space mem_space = Some sp ->
  forall fuel w r off tmp,
    r < 0 \/ (r = 0 /\ w + 6 < pkt_size) ->
    stuck (payload_loop fuel pkt_size mem_space line w r off tmp).
Proof.
  intros Hsp. induction fuel as [| fuel IH]; intros w r off tmp Hr.
  { exact I. }
  cbn [payload_loop].
  destruct (Z.ltb_spec (w + 6) pkt_size).
  - destruct (at_ line off); [| exact I].
    destruct (at_ line (off + 1)); [| exact I].
    apply stuck_write.
    destruct (Z.eqb_spec (r - 1) 0); [lia |].
    apply IH. lia.
  - rewrite Hsp. repeat apply stuck_write.
    destruct (Z.eqb_spec r 0); [lia |].
    apply IH. lia.
Qed.

(* ================================================================== *)
(** * More fuel does not change a result *)

Lemma write_mono {A} items (k k' : flow A) :
  (k <> OutOfFuel -> k' = k) ->
  write items k <> OutOfFuel -> write items k' = write items k.
Proof.
  intros H Hw. rewrite H; [reflexivity |].
  intros E. apply Hw. now rewrite E.
Qed.

Lemma bind_mono {A B} (m m' : flow A) (k k' : A -> flow B) :
  (m <> OutOfFuel -> m' = m) ->
  (forall a, k a <> OutOfFuel -> k' a = k a) ->
  bind m k <> OutOfFuel -> bind m' k' = bind m k.
Proof.
  intros Hm Hk H. rewrite Hm.
  - destruct m; try reflexivity. simpl in *.
    apply write_mono; [exact (Hk a) | exact H].
  - intros E. apply H. now rewrite E.
Qed.

Lemma payload_loop_mono pkt_size mem_space line :
  forall fuel fuel' w r off tmp,
    (fuel <= fuel')%nat ->
    payload_loop fuel pkt_size mem_space line w r off tmp <> OutOfFuel ->
    payload_loop fuel' pkt_size mem_space line w r off tmp
    = payload_loop fuel pkt_size mem_space line w r off tmp.
Proof.
  induction fuel as [| fuel IH]; intros fuel' w r off tmp Hle H.
  { now contradiction H. }
  destruct fuel' as [| fuel']; [lia |].
  cbn [payload_loop] in *.
  destruct (w + 6 <? pkt_size).
  - destruct (at_ line off); [| reflexivity].
    destruct (at_ line (off + 1)); [| reflexivity].
    revert H. apply write_mono.
    destruct (r - 1 =? 0); [reflexivity |]. apply IH. lia.
  - revert H. apply write_mono.
    destruct (known_space mem_space); [| reflexivity].
    apply write_mono. apply write_mono.
    destruct (r =? 0); [reflexivity |]. apply IH. lia.
Qed.

Lemma emit_record_mono pkt_size mem_space line fuel fuel' :
  (fuel <= fuel')%nat ->
  emit_record fuel pkt_size mem_space line <> OutOfFuel ->
  emit_record fuel' pkt_size mem_space line
  = emit_record fuel pkt_size mem_space line.
Proof.
  intros Hle. unfold emit_record.
  destruct (at_ line 2); [| reflexivity].
  destruct (at_ line 3); [| reflexivity].
  destruct (skipn 4 line) as [| t0 [| t1 [| t2 [| t3 [| t4 [| t5 l]]]]]];
    try reflexivity.
  destruct (known_space mem_space); [| reflexivity].
  apply write_mono. apply write_mono. apply bind_mono.
  - now apply payload_loop_mono.
  - reflexivity.
Qed.

Lemma record_body_mono pkt_size line mem_space fuel fuel' :
  (fuel <= fuel')%nat ->
  record_body fuel pkt_size line mem_space <> OutOfFuel ->
  record_body fuel' pkt_size line mem_space
  = record_body fuel pkt_size line mem_space.
Proof.
  intros Hle. unfold record_body.
  destruct (record_is line "0") as [[] |]; try reflexivity.
  destruct (record_is line "2") as [[] |]; try reflexivity.
  apply bind_mono; [now apply emit_record_mono | reflexivity].
Qed.

Lemma record_loop_mono pkt_size :
  forall fuel fuel' inp line mem_space,
    (fuel <= fuel')%nat ->
    record_loop fuel pkt_size inp line mem_space <> OutOfFuel ->
    record_loop fuel' pkt_size inp line mem_space
    = record_loop fuel pkt_size inp line mem_space.
Proof.
  induction fuel as [| fuel IH]; intros fuel' inp line mem_space Hle H.
  { now contradiction H. }
  destruct fuel' as [| fuel']; [lia |].
  cbn [record_loop] in *.
  destruct (extract inp line) as [[inp' line'] |]; [| reflexivity].
  revert H. apply bind_mono.
  - now apply record_body_mono.
  - intros [line'' mem']. destruct (eofbit inp'); [reflexivity |].
    apply IH. lia.
Qed.

(** A call of [buildIncFile] that ends within [fuel] steps does the same
    with any larger bound. *)
Lemma buildIncFile_mono fuel fuel' input pkt_size :
  (fuel <= fuel')%nat ->
  buildIncFile fuel input pkt_size <> Diverged ->
  buildIncFile fuel' input pkt_size = buildIncFile fuel input pkt_size.
Proof.
  intros Hle H. unfold buildIncFile in *.
  rewrite (record_loop_mono pkt_size fuel fuel'); [reflexivity | assumption |].
  intros E. apply H. now rewrite E.
Qed.

Lemma main_mono fuel fuel' fs argv :
  (fuel <= fuel')%nat ->
  main fuel fs argv <> Hung ->
  main fuel' fs argv = main fuel fs argv.
Proof.
  intros Hle H. unfold main in *.
  destruct (startup fs argv) as [st | e]; [| reflexivity].
  destruct (f_in st) as [input |]; [| reflexivity].
  rewrite (buildIncFile_mono fuel fuel'); [reflexivity | assumption |].
  intros E. apply H. now rewrite E.
Qed.

(* ================================================================== *)
(** * Payload and packet counts *)

Lemma pairs_length s : forall n, length s = (2 * n)%nat -> length (pairs s) = n.
Proof.
  intros n. revert s. induction n as [| n IH]; intros s H.
  - destruct s; [reflexivity | discriminate].
  - destruct s as [| c0 [| c1 s]]; try (simpl in H; lia).
    cbn [pairs length]. f_equal. apply IH. simpl in H. lia.
Qed.

Lemma ceil_div_quotient l d :
  0 < d -> 1 <= l ->
  1 + (l - 1) / d = if d <? l then ceil_div l d else 1.
Proof.
  intros Hd Hl. unfold ceil_div.
  replace (l + d - 1) with (l - 1 + 1 * d) by lia.
  rewrite Z.div_add by lia.
  destruct (Z.ltb_spec d l); [lia |].
  rewrite Z.div_small; lia.
Qed.

(** C1. For a data record with payload length [l >= 1] (length field
    [l + 4], the [2 * l] payload characters present in the line), a known
    memory space and a packet size that is a multiple of 3 and at least 9,
    the emission ends, the payloads of the packets it emits are, put
    together, exactly the [l] payload bytes of the record, and it emits
    [ceil(l / (pkt_size - 6))] packets when [l > pkt_size - 6] and one
    packet otherwise. *)
Theorem record_payload_and_packet_count :
  forall fuel pkt_size mem_space sp l0 l1 addr payload rest l,
    known_space mem_space = Some sp ->
    pkt_size mod 3 = 0 ->
    9 <= pkt_size ->
    forallb is_hex [l0; l1] = true ->
    hex_value [l0; l1] = l + 4 ->
    1 <= l ->
    length addr = 6%nat ->
    Z.of_nat (length payload) = 2 * l ->
    2 * l <= Z.of_nat fuel ->
    exists out,
      emit_record fuel pkt_size mem_space (s2_line l0 l1 addr payload rest)
      = Next out (payload ++ rest)
      /\ concat (map pk_payload (packets out)) = pairs payload
      /\ Z.of_nat (length (concat (map pk_payload (packets out)))) = l
      /\ Z.of_nat (length (packets out))
         = if pkt_size - 6 <? l then ceil_div l (pkt_size - 6) else 1.
Proof.
  intros fuel pkt_size mem_space sp l0 l1 addr payload rest l
         Hsp _ Hsize Hlen Hval Hl Haddr Hpay Hfuel.
  destruct (emit_record_spec fuel pkt_size mem_space sp l0 l1 addr payload
              rest l Hsp ltac:(lia) Hlen Hval Hl Haddr Hpay Hfuel)
    as (out & Hrun & Hsum & Hcount & _).
  exists out. refine (conj Hrun (conj Hsum (conj _ _))).
  - rewrite Hsum, (pairs_length payload (Z.to_nat l)); lia.
  - rewrite Hcount. apply ceil_div_quotient; lia.
Qed.

Lemma record_payload_and_packet_count_witness :
  exists out,
    emit_record 40 18 2
      (s2_line "0" "E" (txt "001234") (txt "00010203040506070809")
               (txt "A1"))
    = Next out (txt "00010203040506070809" ++ txt "A1")
    /\ concat (map pk_payload (packets out))
       = pairs (txt "00010203040506070809")
    /\ Z.of_nat (length (concat (map pk_payload (packets out)))) = 10
    /\ Z.of_nat (length (packets out))
       = if 18 - 6 <? 10 then ceil_div 10 (18 - 6) else 1.
Proof.
  apply (record_payload_and_packet_count 40 18 2 SpaceY);
    reflexivity || lia.
Defined.

(* ================================================================== *)
(** * Continuation addresses *)

(** C2, as stated, fails where the address leaves the 24-bit range: the
    record at FFFFFF with six payload bytes and [pkt_size = 9] is emitted
    in two packets, and the header of the second renders 10 00 00, the
    first six digits of 1000000, not FFFFFF plus one word. *)
Lemma continuation_address_overflow :
  exists out line',
    emit_record 40 9 2 (buffer (txt "S20AFFFFFF010203040506A1"))
    = Next out line'
    /\ map pk_addr (packets out) = [txt "FFFFFF"; txt "100000"]
    /\ map pk_word_count (packets out) = [1; 1]
    /\ ~ addresses_advance (packets out).
Proof.
  eexists. eexists. split; [vm_compute; reflexivity |].
  split; [reflexivity |]. split; [reflexivity |].
  intros H. specialize (H 0%nat _ _ eq_refl eq_refl).
  vm_compute in H. discriminate.
Qed.

(** C2, amended. For a data record whose address field is six hex
    digits with value [a], emitted in packets whose addresses all stay
    below 0x1000000 (the last one is [a] plus the words of all packets
    before it), the address in the header of each packet after the first
    is the address of the packet before it plus the number of 24-bit
    words in that packet's payload. *)
Theorem continuation_address_advances :
  forall fuel pkt_size mem_space sp l0 l1 addr payload rest l a,
    known_space mem_space = Some sp ->
    pkt_size mod 3 = 0 ->
    9 <= pkt_size ->
    forallb is_hex [l0; l1] = true ->
    hex_value [l0; l1] = l + 4 ->
    1 <= l ->
    addr_text addr a ->
    Z.of_nat (length payload) = 2 * l ->
    2 * l <= Z.of_nat fuel ->
    a + (l - 1) / (pkt_size - 6) * ((pkt_size - 6) / 3) < 2 ^ 24 ->
    exists out,
      emit_record fuel pkt_size mem_space (s2_line l0 l1 addr payload rest)
      = Next out (payload ++ rest)
      /\ addresses_advance (packets out).
Proof.
  intros fuel pkt_size mem_space sp l0 l1 addr payload rest l a
         Hsp _ Hsize Hlen Hval Hl Haddr Hpay Hfuel Hbound.
  destruct (emit_record_spec fuel pkt_size mem_space sp l0 l1 addr payload
              rest l Hsp ltac:(lia) Hlen Hval Hl (proj1 Haddr) Hpay Hfuel)
    as (out & Hrun & _ & _ & _ & Hchain).
  exists out. split; [exact Hrun |].
  destruct (Hchain a Haddr Hbound) as [Hch _].
  exact (chained_consecutive _ _ _ Hch).
Qed.

Lemma continuation_address_advances_witness :
  exists out,
    emit_record 40 9 2
      (s2_line "0" "D" (txt "00FFFE") (txt "010203040506070809") (txt "A1"))
    = Next out (txt "010203040506070809" ++ txt "A1")
    /\ addresses_advance (packets out).
Proof.
  apply (continuation_address_advances 40 9 2 SpaceY _ _ _ _ _ 9 65534);
    try reflexivity; try lia.
  repeat split.
Defined.

(* ================================================================== *)
(** * Unknown memory space *)

(** An S2 record met while [mem_space] is none of 1, 2, 4 ends the call
    at once with -1 and the diagnostic; nothing is written for it. *)
Lemma unknown_space_aborts fuel pkt_size mem_space l0 l1 t0 t1 t2 t3 t4 t5
      payload rest :
  known_space mem_space = None ->
  emit_record fuel pkt_size mem_space
    (s2_line l0 l1 [t0; t1; t2; t3; t4; t5] payload rest)
  = Ret [] [UnknownMemorySpace] (-1).
Proof. intros H. rewrite emit_record_s2. cbv zeta. now rewrite H. Qed.

(** C3. Whatever [buildIncFile] returns, and so also when it returns -1
    for an S2 record in an unknown memory space, [main] drops the value
    and the process ends with status 0; the output written before the
    record stays in place.  The claim asks for a non-zero status. *)
Theorem unknown_space_exit_status :
  forall fuel fs argv st input out err code,
    startup fs argv = Go st ->
    f_in st = Some input ->
    buildIncFile fuel input (packet_size st) = Returned out err code ->
    main fuel fs argv = Exited 0 out (cli_err st ++ err).
Proof.
  intros fuel fs argv st input out err code Hstart Hin Hbuild.
  unfold main. now rewrite Hstart, Hin, Hbuild.
Qed.

Lemma unknown_space_exit_status_witness :
  buildIncFile 5 unswitched_input 18
  = Returned [FileHeader] [UnknownMemorySpace] (-1)
  /\ main 5 (one_file "in.srec" unswitched_input)
          [txt "srec2inc"; txt "-Iin.srec"]
     = Exited 0 [FileHeader] [UnknownMemorySpace].
Proof.
  split; [reflexivity |].
  apply (unknown_space_exit_status 5
           (one_file "in.srec" unswitched_input)
           [txt "srec2inc"; txt "-Iin.srec"]
           {| packet_size := 18; n_flag := FLAG_NOT_PRESENT;
              i_flag := FLAG_OK; o_flag := FLAG_NOT_PRESENT;
              f_in := Some unswitched_input;
              f_out := false; cli_err := [] |}
           unswitched_input [FileHeader] [UnknownMemorySpace] (-1));
    reflexivity.
Defined.

(* ================================================================== *)
(** * End-to-end scenario 1 *)

Lemma buildIncFile_agree fuel fuel' input pkt_size :
  buildIncFile fuel input pkt_size <> Diverged ->
  buildIncFile fuel' input pkt_size <> Diverged ->
  buildIncFile fuel' input pkt_size = buildIncFile fuel input pkt_size.
Proof.
  intros H H'. destruct (Nat.le_ge_cases fuel fuel') as [Hle | Hle].
  - now apply buildIncFile_mono.
  - symmetry. now apply buildIncFile_mono.
Qed.

(** C4, as stated, fails: the S0 line of the scenario carries 00 at the
    place of the memory-space code, so no run on this input writes the
    declaration of [PPP_Y1234_LEN] (nor any other declaration). *)
Lemma scenario1_no_declaration :
  ~ (exists fuel out err code,
        buildIncFile fuel scenario1 18 = Returned out err code
        /\ occurs (txt "uint32_t const PPP_Y1234_LEN = 12;") (render out)
           = true).
Proof.
  intros (fuel & out & err & code & Hrun & Hocc).
  assert (H2 : buildIncFile 2 scenario1 18
               = Returned [FileHeader] [UnknownMemorySpace] (-1))
    by reflexivity.
  rewrite (buildIncFile_agree 2 fuel) in Hrun by congruence.
  rewrite H2 in Hrun. inversion Hrun; subst out.
  vm_compute in Hocc. discriminate.
Qed.

(** C4, amended. On the three lines of scenario 1 with [pkt_size = 18]
    the converter writes the fixed file header and nothing else: the S0
    line sets the memory space to 0, the S2 line is therefore met in an
    unknown memory space, and [buildIncFile] reports it and returns -1. *)
Theorem scenario1_unknown_space :
  forall fuel,
    buildIncFile (2 + fuel) scenario1 18
    = Returned [FileHeader] [UnknownMemorySpace] (-1)
    /\ render [FileHeader] = file_header
    /\ packets [FileHeader] = [].
Proof.
  intros fuel. split; [| split; [apply app_nil_r | reflexivity]].
  rewrite (buildIncFile_mono 2 (2 + fuel)); [reflexivity | lia |].
  discriminate.
Qed.

(** With the code 02 in the S0 line and the length field 0E that fits
    the ten payload bytes, the scenario yields one packet; its length
    constant is 16 (payload plus the six header bytes), and the array is
    closed without a trailing comma. *)
Example scenario1_repaired :
  exists out,
    buildIncFile 40
      (lines ["S0030002FA"; "S20E00123400010203040506070809A1";
              "S804000000FB"]%string) 18
    = Returned (FileHeader :: out) [] 0
    /\ render out
       = txt "uint32_t const PPP_Y1234_LEN = 16;" ++ [LF]
         ++ txt "uint8_t  const PPP_Y1234[] = {0xC6,0x00,0x03,0x00,0x12,0x34,0x00,0x01,0x02,0x03,0x04,0x05,0x06,0x07,0x08,0x09};"
         ++ [LF; LF].
Proof. eexists. split; vm_compute; reflexivity. Qed.

(* ================================================================== *)
(** * A record without payload *)

(** C5. The claim does not hold of the code.  On a record with the
    length field 04 (no payload) in memory space Y the payload loop
    writes a byte before it tests [rec_len != 0]; [rec_len] is then -1
    and the test never fails: the call writes 507 bytes in 43 packets,
    two characters each from the rest of the 1024-byte line buffer, and
    then reads outside the buffer.  No run of the converter on this
    input returns. *)
Theorem empty_payload_never_completes :
  forall fuel,
    (forall out err code,
        buildIncFile fuel empty_payload_input 18 <> Returned out err code)
    /\ exists out,
         buildIncFile (600 + fuel) empty_payload_input 18 = Crashed out
         /\ length (all_payload out) = 507%nat
         /\ length (packets out) = 43%nat.
Proof.
  intros fuel.
  assert (H : exists out,
             buildIncFile 600 empty_payload_input 18 = Crashed out
             /\ length (all_payload out) = 507%nat
             /\ length (packets out) = 43%nat).
  { vm_compute. eexists. repeat split. }
  destruct H as (out & Hrun & Hcount). split.
  - intros out' err code Hret.
    assert (E : buildIncFile fuel empty_payload_input 18
                = buildIncFile 600 empty_payload_input 18).
    { apply buildIncFile_agree; [rewrite Hrun | rewrite Hret]; discriminate. }
    rewrite Hret, Hrun in E. discriminate.
  - exists out. split; [| exact Hcount].
    rewrite (buildIncFile_mono 600 (600 + fuel)); [exact Hrun | lia |].
    rewrite Hrun. discriminate.
Qed.

(* ================================================================== *)
(** * Name suffixes *)

(** C7, as stated, fails where the address leaves the 24-bit range: the
    third packet of the record at FFFFFD with fifteen payload bytes and
    [pkt_size = 12] is named by the seven digits 1000001, while its
    header carries the six digits 100000. *)
Lemma suffix_overflow :
  exists out line',
    emit_record 40 12 2
      (buffer (txt "S213FFFFFD0102030405060708090A0B0C0D0E0FA1"))
    = Next out line'
    /\ map pk_addr (packets out)
       = [txt "FFFFFD"; txt "FFFFFF"; txt "100000"]
    /\ map pk_suffix (packets out)
       = [txt "FFFFFD"; txt "FFFFFF"; txt "1000001"]
    /\ ~ Forall suffix_ok (packets out).
Proof.
  eexists. eexists. split; [vm_compute; reflexivity |].
  split; [reflexivity |]. split; [reflexivity |].
  set (ps := packets _). vm_compute in ps. subst ps. intros H.
  inversion H as [| p1 ps1 _ Hps1]. inversion Hps1 as [| p2 ps2 _ Hps2].
  inversion Hps2 as [| p3 ps3 Hp3 _]. discriminate Hp3.
Qed.

(** C7, amended. For a data record whose address field is six hex
    digits, emitted in packets whose addresses all stay below 0x1000000,
    the name suffix of every packet is the six-digit address of its
    header without the leading '0' characters; the characters are
    dropped, the number is not cut: 001234 gives 1234 and 000000 gives
    the empty suffix. *)
Theorem suffix_strips_zeros :
  forall fuel pkt_size mem_space sp l0 l1 addr payload rest l a,
    known_space mem_space = Some sp ->
    pkt_size mod 3 = 0 ->
    9 <= pkt_size ->
    forallb is_hex [l0; l1] = true ->
    hex_value [l0; l1] = l + 4 ->
    1 <= l ->
    addr_text addr a ->
    Z.of_nat (length payload) = 2 * l ->
    2 * l <= Z.of_nat fuel ->
    a + (l - 1) / (pkt_size - 6) * ((pkt_size - 6) / 3) < 2 ^ 24 ->
    exists out,
      emit_record fuel pkt_size mem_space (s2_line l0 l1 addr payload rest)
      = Next out (payload ++ rest)
      /\ Forall suffix_ok (packets out)
      /\ name_suffix (txt "001234") (leading_zeros 6 (txt "001234"))
         = txt "1234"
      /\ name_suffix (txt "000000") (leading_zeros 6 (txt "000000")) = [].
Proof.
  intros fuel pkt_size mem_space sp l0 l1 addr payload rest l a
         Hsp _ Hsize Hlen Hval Hl Haddr Hpay Hfuel Hbound.
  destruct (emit_record_spec fuel pkt_size mem_space sp l0 l1 addr payload
              rest l Hsp ltac:(lia) Hlen Hval Hl (proj1 Haddr) Hpay Hfuel)
    as (out & Hrun & _ & _ & _ & Hchain).
  exists out. split; [exact Hrun |].
  destruct (Hchain a Haddr Hbound) as [_ Hsuf].
  split; [exact Hsuf |]. split; reflexivity.
Qed.

Lemma suffix_strips_zeros_witness :
  exists out,
    emit_record 40 9 2
      (s2_line "0" "A" (txt "000000") (txt "010203040506") (txt "A1"))
    = Next out (txt "010203040506" ++ txt "A1")
    /\ Forall suffix_ok (packets out)
    /\ name_suffix (txt "001234") (leading_zeros 6 (txt "001234"))
       = txt "1234"
    /\ name_suffix (txt "000000") (leading_zeros 6 (txt "000000")) = [].
Proof.
  apply (suffix_strips_zeros 40 9 2 SpaceY _ _ _ _ _ 6 0);
    try reflexivity; try lia.
  repeat split.
Defined.

(* ================================================================== *)
(** * The packet size *)

Lemma flag_N_packet_size st arg :
  packet_size (flag_N st arg)
  = let v := to_int32 (fst (atoh W32 (skipn 2 arg))) in
    if negb (Z.rem v 3 =? 0) then 18 else if v <? 9 then 18 else v.
Proof.
  unfold flag_N. destruct (atoh W32 (skipn 2 arg)) as [v overflow].
  cbn [fst]. cbv zeta.
  destruct (negb (Z.rem (to_int32 v) 3 =? 0)); [reflexivity |].
  destruct (to_int32 v <? 9); reflexivity.
Qed.

Lemma flag_I_packet_size fs st arg :
  packet_size (flag_I fs st arg) = packet_size st.
Proof.
  unfold flag_I.
  destruct (f_in st); destruct (content fs (cstr (skipn 2 arg))); reflexivity.
Qed.

Lemma flag_O_packet_size fs st arg :
  packet_size (flag_O fs st arg) = packet_size st.
Proof.
  unfold flag_O.
  destruct (negb (f_out st) && creatable fs (cstr (skipn 2 arg)));
    reflexivity.
Qed.

Lemma flag_N_size_ok st arg : size_ok (flag_N st arg).
Proof.
  unfold size_ok. rewrite flag_N_packet_size. cbv zeta.
  set (v := to_int32 _).
  destruct (Z.eqb_spec (Z.rem v 3) 0) as [Hrem | Hrem]; cbn [negb].
  2:{ split; [reflexivity | lia]. }
  destruct (Z.ltb_spec v 9); [split; [reflexivity | lia] |].
  split; [| assumption].
  rewrite <- Z.rem_mod_nonneg by lia. exact Hrem.
Qed.

Lemma handle_arg_size_ok fs st arg st' :
  size_ok st -> handle_arg fs st arg = Go st' -> size_ok st'.
Proof.
  intros Hok. unfold handle_arg.
  destruct arg as [| c0 rest]; [discriminate |].
  set (ch := match rest with [] => NUL | c :: _ => c end).
  destruct ((code ch =? 78) || (code ch =? 110)).
  { intros H; inversion H. apply flag_N_size_ok. }
  destruct ((code ch =? 73) || (code ch =? 105)).
  { intros H; inversion H. unfold size_ok.
    now rewrite flag_I_packet_size. }
  destruct ((code ch =? 79) || (code ch =? 111)); [| discriminate].
  intros H; inversion H. unfold size_ok. now rewrite flag_O_packet_size.
Qed.

Lemma handle_args_size_ok fs args :
  forall st st', size_ok st -> handle_args fs st args = Go st' -> size_ok st'.
Proof.
  induction args as [| arg args IH]; intros st st' Hok H.
  - inversion H. now subst.
  - cbn [handle_args] in H.
    destruct (handle_arg fs st arg) as [st1 |] eqn:E; [| discriminate].
    eauto using handle_arg_size_ok.
Qed.

(** C8. Whenever [main] reaches the call of [buildIncFile], no record
    having been read yet, the packet size it passes is a multiple of 3
    (and at least 9); a value of -N that is not divisible by 3 has been
    replaced by 18 and flagged in the [case 'N'] arm.  So no packet is
    emitted with a size that is not a multiple of 3. *)
Theorem packet_size_multiple_of_three :
  forall fs argv st,
    startup fs argv = Go st ->
    packet_size st mod 3 = 0
    /\ 9 <= packet_size st
    /\ (forall st0 arg,
           Z.rem (to_int32 (fst (atoh W32 (skipn 2 arg)))) 3 <> 0 ->
           packet_size (flag_N st0 arg) = 18
           /\ n_flag (flag_N st0 arg) = FLAG_FAILED
           /\ In InvalidParameterN (cli_err (flag_N st0 arg))).
Proof.
  intros fs argv st H.
  assert (Hok : size_ok st).
  { unfold startup in H. destruct argv as [| prog args]; [discriminate |].
    destruct (handle_args fs cli0 (rev args)) as [st1 |] eqn:E;
      [| discriminate].
    assert (Hst1 : size_ok st1).
    { apply (handle_args_size_ok fs (rev args) cli0 st1); [| exact E].
      split; [reflexivity | cbn; lia]. }
    destruct (negb (flag_ok (i_flag st1))); [discriminate |].
    destruct (flag_ok (o_flag st1)); [inversion H; now subst |].
    destruct (o_flag st1); try discriminate;
      (destruct (creatable fs _); [inversion H; now subst | discriminate]). }
  destruct Hok as [H3 H9]. refine (conj H3 (conj H9 _)).
  intros st0 arg Hrem. unfold flag_N.
  destruct (atoh W32 (skipn 2 arg)) as [v overflow]. cbn [fst] in Hrem.
  destruct (Z.eqb_spec (Z.rem (to_int32 v) 3) 0); [contradiction |].
  cbn [negb packet_size n_flag cli_err].
  repeat split. apply in_or_app. right. now left.
Qed.

Lemma packet_size_multiple_of_three_witness :
  18 mod 3 = 0
  /\ 9 <= 18
  /\ (forall st0 arg,
         Z.rem (to_int32 (fst (atoh W32 (skipn 2 arg)))) 3 <> 0 ->
         packet_size (flag_N st0 arg) = 18
         /\ n_flag (flag_N st0 arg) = FLAG_FAILED
         /\ In InvalidParameterN (cli_err (flag_N st0 arg))).
Proof.
  apply (packet_size_multiple_of_three
           (one_file "in.srec" scenario1)
           [txt "srec2inc"; txt "-N10"; txt "-Iin.srec"]
           {| packet_size := 18; n_flag := FLAG_FAILED;
              i_flag := FLAG_OK; o_flag := FLAG_NOT_PRESENT;
              f_in := Some scenario1; f_out := false;
              cli_err := [InvalidParameterN] |}).
  reflexivity.
Defined.

(* ================================================================== *)
(** * Termination of the payload loop *)

(** The emission of a record whose length field reads 4 or less never
    reaches the end of the S2 branch. *)
Lemma emit_record_runaway fuel pkt_size mem_space sp l0 l1 addr payload rest :
  known_space mem_space = Some sp ->
  6 < pkt_size ->
  length addr = 6%nat ->
  scanned [l0; l1] - 4 <= 0 ->
  stuck (emit_record fuel pkt_size mem_space (s2_line l0 l1 addr payload rest)).
Proof.
  intros Hsp Hsize Haddr Hl.
  do 6 (destruct addr as [| ? addr]; [discriminate |]).
  destruct addr; [| discriminate].
  rewrite emit_record_s2. cbv zeta. rewrite Hsp.
  do 2 apply stuck_write. apply stuck_bind.
  apply (payload_loop_runaway pkt_size mem_space sp _ Hsp). lia.
Qed.

(** C9. For a data record in a known memory space and a packet size of
    at least 9, the emission (whose payload loop tests [rec_len != 0]
    only after a byte was written and counted) ends if and only if the
    payload length [byte_count - 4] is at least 1. *)
Theorem payload_loop_terminates_iff :
  forall pkt_size mem_space sp l0 l1 addr payload rest,
    known_space mem_space = Some sp ->
    9 <= pkt_size ->
    forallb is_hex [l0; l1] = true ->
    length addr = 6%nat ->
    Z.of_nat (length payload) = 2 * Z.max (hex_value [l0; l1] - 4) 0 ->
    (exists fuel out line',
        emit_record fuel pkt_size mem_space (s2_line l0 l1 addr payload rest)
        = Next out line')
    <-> 1 <= hex_value [l0; l1] - 4.
Proof.
  intros pkt_size mem_space sp l0 l1 addr payload rest
         Hsp Hsize Hlen Haddr Hpay.
  assert (Hscan : scanned [l0; l1] = hex_value [l0; l1]).
  { unfold scanned.
    now rewrite sscanf_hex by (assumption || discriminate || (simpl; lia)). }
  split.
  - intros (fuel & out & line' & Hrun).
    destruct (Z.le_gt_cases 1 (hex_value [l0; l1] - 4)) as [| Hle];
      [assumption |].
    pose proof (emit_record_runaway fuel pkt_size mem_space sp l0 l1 addr
                  payload rest Hsp ltac:(lia) Haddr ltac:(lia)) as Hstuck.
    rewrite Hrun in Hstuck. contradiction.
  - intros Hl.
    destruct (emit_record_spec
                (Z.to_nat (2 * (hex_value [l0; l1] - 4)))
                pkt_size mem_space sp l0 l1 addr payload rest
                (hex_value [l0; l1] - 4))
      as (out & Hrun & _); try assumption; try lia.
    eauto.
Qed.

Lemma payload_loop_terminates_iff_witness :
  (exists fuel out line',
      emit_record fuel 18 2
        (s2_line "0" "7" (txt "001234") (txt "010203") (txt "A1"))
      = Next out line')
  <-> 1 <= hex_value [ "0"; "7" ]%char - 4.
Proof.
  apply (payload_loop_terminates_iff 18 2 SpaceY); reflexivity || lia.
Defined.

(* ================================================================== *)
(** * The text after -N *)

(** C10, as stated, fails where the hex value is not accepted: the hex
    interpretation of the digits of -N10 is 16, which is not a multiple
    of 3, and the packet size that reaches the call of [buildIncFile] is
    18; so the packet size is not, for every invocation, the hex
    interpretation of the digits after -N. *)
Lemma packet_size_not_the_hex_value :
  hex_value (hex_prefix (skipn 2 (txt "-N10"))) = 16
  /\ startup (one_file "in.srec" scenario1)
             [txt "srec2inc"; txt "-N10"; txt "-Iin.srec"]
     = Go {| packet_size := 18; n_flag := FLAG_FAILED;
             i_flag := FLAG_OK; o_flag := FLAG_NOT_PRESENT;
             f_in := Some scenario1; f_out := false;
             cli_err := [InvalidParameterN] |}
  /\ ~ (forall st arg,
           packet_size (flag_N st arg)
           = hex_value (hex_prefix (skipn 2 arg))).
Proof.
  split; [reflexivity |]. split; [reflexivity |].
  intros H. specialize (H cli0 (txt "-N10")). vm_compute in H.
  discriminate.
Qed.

(** C10, amended. The [case 'N'] arm reads the text after the two flag
    characters as hexadecimal: the packet size becomes the hex value of
    the (at most eight) hex digits that start it, when that value is a
    multiple of 3, at least 9 and below 2^31, and 18 otherwise.  So -N18
    gives 24 and -N12 gives 18; the decimal value of the text plays no
    part. *)
Theorem packet_size_is_hex :
  forall st arg,
    packet_size (flag_N st arg)
    = accepted_size (hex_value (firstn 8 (hex_prefix (skipn 2 arg))))
    /\ packet_size (flag_N cli0 (txt "-N18")) = 24
    /\ packet_size (flag_N cli0 (txt "-N12")) = 18
    /\ startup (one_file "in.srec" scenario1)
                [txt "srec2inc"; txt "-N18"; txt "-Iin.srec"]
       = Go {| packet_size := 24; n_flag := FLAG_OK;
               i_flag := FLAG_OK; o_flag := FLAG_NOT_PRESENT;
               f_in := Some scenario1; f_out := false; cli_err := [] |}.
Proof.
  intros st arg.
  refine (conj _ (conj eq_refl (conj eq_refl _))).
  - rewrite flag_N_packet_size, atoh_spec. cbn [fst]. cbv zeta.
    change (Z.to_nat (bits W32 / 4)) with 8%nat.
    set (s := firstn 8 (hex_prefix (skipn 2 arg))).
    assert (Hv : 0 <= hex_value s < 2 ^ 32).
    { pose proof (hex_value_bound s) as Hb.
      assert (Hs : (length s <= 8)%nat) by apply firstn_le_length.
      assert (16 ^ Z.of_nat (length s) <= 16 ^ 8)
        by (apply Z.pow_le_mono_r; lia).
      change (2 ^ 32) with (16 ^ 8). lia. }
    unfold accepted_size, to_int32. rewrite Z.mod_small by exact Hv.
    destruct (Z.ltb_spec (hex_value s) (2 ^ 31)) as [Hlt | Hge].
    + rewrite Z.rem_mod_nonneg by lia. rewrite andb_true_r.
      destruct (Z.eqb_spec (hex_value s mod 3) 0); cbn [negb andb];
        [| reflexivity].
      destruct (Z.ltb_spec (hex_value s) 9), (Z.leb_spec 9 (hex_value s));
        reflexivity || lia.
    + rewrite andb_false_r.
      destruct (Z.rem (hex_value s - 2 ^ 32) 3 =? 0); cbn [negb];
        [| reflexivity].
      destruct (Z.ltb_spec (hex_value s - 2 ^ 32) 9); [reflexivity | lia].
  - reflexivity.
Qed.

(* ================================================================== *)
(** * The packets of a record *)

(** The S2 branch in a known memory space, up to the payload loop. *)
Lemma emit_record_known fuel pkt_size mem_space sp l0 l1 addr payload rest l :
  known_space mem_space = Some sp ->
  forallb is_hex [l0; l1] = true ->
  hex_value [l0; l1] = l + 4 ->
  length addr = 6%nat ->
  emit_record fuel pkt_size mem_space (s2_line l0 l1 addr payload rest)
  = write [LenDecl sp (name_suffix addr (leading_zeros 6 addr))
             (if l + 6 <=? pkt_size then l + 6 else pkt_size);
           ArrOpen sp (name_suffix addr (leading_zeros 6 addr));
           PPPHead sp (if l + 6 <=? pkt_size then sprintf_X 2 (Z.quot l 3)
                       else sprintf_X 2 (Z.quot (pkt_size - 6) 3));
           addr_bytes addr]
      (bind (payload_loop fuel pkt_size mem_space (payload ++ rest)
                          0 l 0 addr)
            (fun _ => Next [ArrClose] (payload ++ rest))).
Proof.
  intros Hsp Hlen Hval Haddr.
  do 6 (destruct addr as [| ? addr]; [discriminate |]).
  destruct addr; [| discriminate].
  rewrite emit_record_s2. cbv zeta.
  assert (Hscan : scanned [l0; l1] - 4 = l).
  { unfold scanned.
    rewrite sscanf_hex by (assumption || discriminate || (simpl; lia)). lia. }
  rewrite Hscan, Hsp. unfold declare.
  destruct (payload_loop fuel pkt_size mem_space (payload ++ rest) 0 l 0 _);
    reflexivity.
Qed.

Section PacketHeaders.

Variables (pkt_size mem_space : Z) (sp : space) (line : list ascii).
Hypothesis Hspace : known_space mem_space = Some sp.
Hypothesis Hsize : 6 < pkt_size.

(** The packets that the loop opens: each names the memory space of the
    record, holds between 1 and [pkt_size - 6] bytes, declares its payload
    plus 6 as length and its payload divided by 3 as word count; a packet
    that is followed by another one is full. *)
Lemma payload_loop_headers :
  forall fuel w r off tmp body post,
    1 <= r -> 0 <= w <= pkt_size - 6 -> 0 <= off ->
    skipn (Z.to_nat off) line = body ++ post ->
    Z.of_nat (length body) = 2 * r ->
    2 * r <= Z.of_nat fuel + (if w <? pkt_size - 6 then 1 else 0) ->
    exists out,
      payload_loop fuel pkt_size mem_space line w r off tmp = Next out tt
      /\ Z.of_nat (length (payload_run out)) = Z.min r (pkt_size - 6 - w)
      /\ Forall (header_ok pkt_size sp) (packets out)
      /\ full_but_last (pkt_size - 6)
           (w + Z.of_nat (length (payload_run out))) (packets out)
      /\ Forall (eq sp) (spaces out)
      /\ names_agree out.
Proof.
  induction fuel as [| fuel IH]; intros w r off tmp body post
    Hr Hw Hoff Hbuf Hlen Hfuel.
  { destruct (w <? pkt_size - 6); lia. }
  destruct (Z.ltb_spec w (pkt_size - 6)) as [Hlt | Hge].
  - destruct body as [| c0 [| c1 body']]; cbn [length] in Hlen; try lia.
    cbn [app] in Hbuf.
    destruct (at_skipn _ _ _ _ _ Hoff Hbuf) as (H0 & H1 & Hbuf').
    rewrite (payload_loop_write pkt_size mem_space line fuel w r off tmp c0 c1)
      by (assumption || lia).
    destruct (Z.eqb_spec (r - 1) 0) as [Hlast | Hmore].
    + exists [PayloadByte c0 c1]. cbn [write app].
      refine (conj eq_refl (conj _ _)).
      * cbn [payload_run length]. lia.
      * cbn [packets spaces names_agree full_but_last]. auto.
    + destruct (IH (w + 1) (r - 1) (off + 2) tmp body' post)
        as (out & Hrun & Hfirst & Hhead & Hfull & Hsp & Hnames); try lia.
      { assumption. }
      { destruct (Z.ltb_spec (w + 1) (pkt_size - 6)); lia. }
      exists (PayloadByte c0 c1 :: out). rewrite Hrun. cbn [write app].
      refine (conj eq_refl (conj _ (conj Hhead (conj _ (conj Hsp Hnames))))).
      * cbn [payload_run length]. rewrite Nat2Z.inj_succ, Hfirst. lia.
      * cbn [packets payload_run length].
        replace (w + Z.of_nat (S (length (payload_run out))))
          with (w + 1 + Z.of_nat (length (payload_run out))) by lia.
        exact Hfull.
  - assert (w = pkt_size - 6) by lia. subst w.
    rewrite (payload_loop_next pkt_size mem_space sp line Hspace) by lia.
    set (tmp' := sprintf_X 6 (scanned tmp + Z.quot (pkt_size - 6) 3)).
    destruct (IH 0 r off tmp' body post)
      as (out & Hrun & Hfirst & Hhead & Hfull & Hsp & Hnames); try lia.
    { assumption. }
    { destruct (Z.ltb_spec 0 (pkt_size - 6)); lia. }
    rewrite Hrun. unfold declare, addr_bytes. cbn [write app].
    eexists. split; [reflexivity |].
    cbn [payload_run length packets spaces names_agree full_but_last].
    rewrite Z.sub_0_r, Z.add_0_l in *.
    refine (conj _ (conj _ (conj _ (conj _ _)))).
    + lia.
    + constructor; [| exact Hhead].
      unfold header_ok, pk_size.
      cbn [pk_space pk_len pk_words pk_payload]. rewrite Hfirst.
      refine (conj eq_refl (conj _ (conj _ _))).
      * lia.
      * destruct (Z.leb_spec (r + 6) pkt_size); lia.
      * destruct (Z.ltb_spec (r + 6) pkt_size).
        -- rewrite Z.min_l by lia. now rewrite Z.quot_div_nonneg by lia.
        -- rewrite Z.min_r by lia. now rewrite Z.quot_div_nonneg by lia.
    + split; [lia |]. unfold pk_size. cbn [pk_payload]. exact Hfull.
    + repeat constructor. exact Hsp.
    + auto.
Qed.

End PacketHeaders.

Lemma spaces_close out : spaces (out ++ [ArrClose]) = spaces out.
Proof.
  induction out as [| it out IH]; [reflexivity |].
  destruct it; cbn [app spaces]; now rewrite IH.
Qed.

Lemma names_agree_close out : names_agree out -> names_agree (out ++ [ArrClose]).
Proof.
  induction out as [| it out IH]; [auto |].
  destruct it; cbn [app names_agree]; try exact IH.
  intros [Hnext Hrest]. split; [| exact (IH Hrest)].
  destruct out as [| [] out]; try contradiction. exact Hnext.
Qed.

Lemma full_but_last_nth d ps :
  forall n, full_but_last d n ps ->
  forall k p, nth_error ps k = Some p -> (S k < length ps)%nat ->
              pk_size p = d.
Proof.
  induction ps as [| p0 ps IH]; intros n Hfull k p Hp Hk.
  - destruct k; discriminate.
  - destruct Hfull as [_ Hfull]. destruct k as [| k].
    + simpl in Hp. inversion Hp; subst p0.
      destruct ps as [| q ps]; [simpl in Hk; lia |]. exact (proj1 Hfull).
    + simpl in Hp, Hk. apply (IH _ Hfull k p Hp). lia.
Qed.

Lemma ndigits_enough fuel :
  forall u, 0 <= u < 16 ^ Z.of_nat fuel -> u < 16 ^ Z.of_nat (ndigits fuel u).
Proof.
  induction fuel as [| f IH]; intros u Hu.
  - simpl in *. lia.
  - cbn [ndigits]. destruct (Z.ltb_spec u 16); [simpl; lia |].
    rewrite Nat2Z.inj_succ, Z.pow_succ_r in Hu by lia.
    assert (Hq : 0 <= u / 16 < 16 ^ Z.of_nat f).
    { split; [apply Z.div_pos; lia | apply Z.div_lt_upper_bound; lia]. }
    specialize (IH _ Hq).
    rewrite Nat2Z.inj_succ, Z.pow_succ_r by lia.
    pose proof (Z.div_mod u 16 ltac:(lia)) as Hdm.
    pose proof (Z.mod_pos_bound u 16 ltac:(lia)). lia.
Qed.

(** What ["%0kX"] prints is a text of hex digits that reads back as the
    number printed. *)
Lemma sprintf_X_value k n :
  0 <= n < 2 ^ 32 ->
  forallb is_hex (sprintf_X k n) = true /\ hex_value (sprintf_X k n) = n.
Proof.
  intros Hn. unfold sprintf_X. rewrite (Z.mod_small n) by lia.
  split; [apply hex_digits_hex |].
  rewrite hex_digits_value by lia. apply Z.mod_small.
  split; [lia |].
  pose proof (ndigits_enough 8 n ltac:(change (16 ^ Z.of_nat 8) with (2 ^ 32); lia)).
  assert (16 ^ Z.of_nat (ndigits 8 n) <= 16 ^ Z.of_nat (Nat.max k (ndigits 8 n)))
    by (apply Z.pow_le_mono_r; lia).
  lia.
Qed.

(** The packets of a record with [l >= 1] payload bytes in a known
    memory space, read back from the output of the S2 branch. *)
Lemma emit_record_headers fuel pkt_size mem_space sp l0 l1 addr payload rest l :
  known_space mem_space = Some sp ->
  6 < pkt_size ->
  forallb is_hex [l0; l1] = true ->
  hex_value [l0; l1] = l + 4 ->
  1 <= l ->
  length addr = 6%nat ->
  Z.of_nat (length payload) = 2 * l ->
  2 * l <= Z.of_nat fuel ->
  exists out,
    emit_record fuel pkt_size mem_space (s2_line l0 l1 addr payload rest)
    = Next out (payload ++ rest)
    /\ Forall (header_ok pkt_size sp) (packets out)
    /\ full_but_last (pkt_size - 6) (pkt_size - 6) (packets out)
    /\ Forall (eq sp) (spaces out)
    /\ names_agree out.
Proof.
  intros Hsp Hsize Hlen Hval Hl Haddr Hpay Hfuel.
  rewrite (emit_record_known fuel pkt_size mem_space sp l0 l1 addr payload
             rest l Hsp Hlen Hval Haddr).
  destruct (payload_loop_headers pkt_size mem_space sp (payload ++ rest)
              Hsp Hsize fuel 0 l 0 addr payload rest)
    as (out & Hrun & Hfirst & Hhead & Hfull & Hspaces & Hnames); try lia.
  { reflexivity. }
  { destruct (Z.ltb_spec 0 (pkt_size - 6)); lia. }
  rewrite Hrun. unfold addr_bytes. cbn [write bind app].
  eexists. split; [reflexivity |].
  rewrite Z.sub_0_r, Z.add_0_l in *.
  cbn [packets spaces names_agree full_but_last].
  rewrite packets_close, payload_run_close, spaces_close.
  refine (conj _ (conj _ (conj _ _))).
  - constructor; [| exact Hhead].
    unfold header_ok, pk_size. cbn [pk_space pk_len pk_words pk_payload].
    rewrite Hfirst.
    refine (conj eq_refl (conj _ (conj _ _))).
    + lia.
    + destruct (Z.leb_spec (l + 6) pkt_size); lia.
    + destruct (Z.leb_spec (l + 6) pkt_size).
      * rewrite Z.min_l by lia. now rewrite Z.quot_div_nonneg by lia.
      * rewrite Z.min_r by lia. now rewrite Z.quot_div_nonneg by lia.
  - split; [reflexivity |]. unfold pk_size. cbn [pk_payload]. exact Hfull.
  - repeat constructor. exact Hspaces.
  - split; [reflexivity |]. now apply names_agree_close.
Qed.

(** X1. Every packet of a record holds at least one and at most
    [pkt_size - 6] payload bytes, and every packet but the last holds
    exactly [pkt_size - 6]. *)
Theorem packets_filled_in_order :
  forall fuel pkt_size mem_space sp l0 l1 addr payload rest l,
    known_space mem_space = Some sp ->
    6 < pkt_size ->
    forallb is_hex [l0; l1] = true ->
    hex_value [l0; l1] = l + 4 ->
    1 <= l ->
    length addr = 6%nat ->
    Z.of_nat (length payload) = 2 * l ->
    2 * l <= Z.of_nat fuel ->
    exists out,
      emit_record fuel pkt_size mem_space (s2_line l0 l1 addr payload rest)
      = Next out (payload ++ rest)
      /\ Forall (fun p => 1 <= pk_size p <= pkt_size - 6) (packets out)
      /\ (forall k p,
             nth_error (packets out) k = Some p ->
             (S k < length (packets out))%nat ->
             pk_size p = pkt_size - 6).
Proof.
  intros fuel pkt_size mem_space sp l0 l1 addr payload rest l
         Hsp Hsize Hlen Hval Hl Haddr Hpay Hfuel.
  destruct (emit_record_headers fuel pkt_size mem_space sp l0 l1 addr payload
              rest l Hsp Hsize Hlen Hval Hl Haddr Hpay Hfuel)
    as (out & Hrun & Hhead & Hfull & _).
  exists out. refine (conj Hrun (conj _ _)).
  - eapply Forall_impl; [| exact Hhead]. intros p Hp. exact (proj1 (proj2 Hp)).
  - exact (full_but_last_nth _ _ _ Hfull).
Qed.

Lemma packets_filled_in_order_witness :
  exists out,
    emit_record 40 12 4
      (s2_line "0" "D" (txt "00FFFE") (txt "010203040506070809") (txt "A1"))
    = Next out (txt "010203040506070809" ++ txt "A1")
    /\ Forall (fun p => 1 <= pk_size p <= 12 - 6) (packets out)
    /\ (forall k p,
           nth_error (packets out) k = Some p ->
           (S k < length (packets out))%nat ->
           pk_size p = 12 - 6).
Proof.
  apply (packets_filled_in_order 40 12 4 SpaceP _ _ _ _ _ 9);
    reflexivity || lia.
Defined.

(** X2. For an S2 record in a known memory space, with a packet size
    above 6, a hex length field of [l + 4] with [l >= 1], six address
    characters and the [2 * l] payload characters in the line: the length
    constant of every packet is the number of bytes in its array, the
    payload bytes and the six bytes of PPP header and address, and it
    never exceeds [pkt_size]. *)
Theorem length_constant_counts_bytes :
  forall fuel pkt_size mem_space sp l0 l1 addr payload rest l,
    known_space mem_space = Some sp ->
    6 < pkt_size ->
    forallb is_hex [l0; l1] = true ->
    hex_value [l0; l1] = l + 4 ->
    1 <= l ->
    length addr = 6%nat ->
    Z.of_nat (length payload) = 2 * l ->
    2 * l <= Z.of_nat fuel ->
    exists out,
      emit_record fuel pkt_size mem_space (s2_line l0 l1 addr payload rest)
      = Next out (payload ++ rest)
      /\ Forall (fun p => pk_len p = pk_size p + 6 /\ pk_len p <= pkt_size)
                (packets out).
Proof.
  intros fuel pkt_size mem_space sp l0 l1 addr payload rest l
         Hsp Hsize Hlen Hval Hl Haddr Hpay Hfuel.
  destruct (emit_record_headers fuel pkt_size mem_space sp l0 l1 addr payload
              rest l Hsp Hsize Hlen Hval Hl Haddr Hpay Hfuel)
    as (out & Hrun & Hhead & _).
  exists out. split; [exact Hrun |].
  eapply Forall_impl; [| exact Hhead].
  intros p (_ & Hsz & Hl6 & _). lia.
Qed.

Lemma length_constant_counts_bytes_witness :
  exists out,
    emit_record 40 18 1
      (s2_line "0" "E" (txt "001234") (txt "00010203040506070809") (txt "A1"))
    = Next out (txt "00010203040506070809" ++ txt "A1")
    /\ Forall (fun p => pk_len p = pk_size p + 6 /\ pk_len p <= 18)
              (packets out).
Proof.
  apply (length_constant_counts_bytes 40 18 1 SpaceX _ _ _ _ _ 10);
    reflexivity || lia.
Defined.

(** X3. For an S2 record in a known memory space, with a packet size
    above 6, a hex length field of [l + 4] with [l >= 1], six address
    characters and the [2 * l] payload characters in the line: the third
    byte of the PPP header of every packet is the two-digit hex text of
    the payload bytes of the packet divided by 3, rounded down; a last
    packet whose payload is not a whole number of words declares the
    words it holds completely. *)
Theorem word_count_byte :
  forall fuel pkt_size mem_space sp l0 l1 addr payload rest l,
    known_space mem_space = Some sp ->
    6 < pkt_size ->
    forallb is_hex [l0; l1] = true ->
    hex_value [l0; l1] = l + 4 ->
    1 <= l ->
    length addr = 6%nat ->
    Z.of_nat (length payload) = 2 * l ->
    2 * l <= Z.of_nat fuel ->
    exists out,
      emit_record fuel pkt_size mem_space (s2_line l0 l1 addr payload rest)
      = Next out (payload ++ rest)
      /\ Forall (fun p => length (pk_words p) = 2%nat
                          /\ hex_value (pk_words p) = pk_size p / 3)
                (packets out).
Proof.
  intros fuel pkt_size mem_space sp l0 l1 addr payload rest l
         Hsp Hsize Hlen Hval Hl Haddr Hpay Hfuel.
  destruct (emit_record_spec fuel pkt_size mem_space sp l0 l1 addr payload
              rest l Hsp Hsize Hlen Hval Hl Haddr Hpay Hfuel)
    as (out' & Hrun' & Hsum & _).
  destruct (emit_record_headers fuel pkt_size mem_space sp l0 l1 addr payload
              rest l Hsp Hsize Hlen Hval Hl Haddr Hpay Hfuel)
    as (out & Hrun & Hhead & _).
  rewrite Hrun in Hrun'. inversion Hrun'; subst out'.
  exists out. split; [exact Hrun |].
  assert (Hl255 : l <= 251).
  { pose proof (hex_value_bound [l0; l1]) as Hb. cbn [length] in Hb.
    change (16 ^ Z.of_nat 2) with 256 in Hb. lia. }
  assert (Htotal : Z.of_nat (length (concat (map pk_payload (packets out)))) = l).
  { rewrite Hsum. rewrite (pairs_length payload (Z.to_nat l)); lia. }
  assert (Hle : Forall (fun p => pk_size p <= l) (packets out)).
  { rewrite <- Htotal. clear. induction (packets out) as [| p ps IH].
    - constructor.
    - cbn [map concat]. rewrite length_app. constructor.
      + unfold pk_size. lia.
      + eapply Forall_impl; [| exact IH]. intros q Hq. cbn beta in Hq. lia. }
  rewrite Forall_forall in *. intros p Hp.
  destruct (Hhead p Hp) as (_ & Hsz & _ & Hw). specialize (Hle p Hp).
  assert (Hq : 0 <= pk_size p / 3 < 16 ^ 2).
  { split; [apply Z.div_pos; lia |].
    apply Z.div_lt_upper_bound; [lia |]. change (16 ^ 2) with 256. lia. }
  rewrite Hw. split.
  - unfold sprintf_X. rewrite hex_digits_length, Z.mod_small
      by (change (16 ^ 2) with 256 in Hq; lia).
    apply Nat.max_l. apply ndigits_le; [exact Hq | lia].
  - apply sprintf_X_value. change (16 ^ 2) with 256 in Hq. lia.
Qed.

Lemma word_count_byte_witness :
  exists out,
    emit_record 40 18 2
      (s2_line "0" "E" (txt "001234") (txt "00010203040506070809") (txt "A1"))
    = Next out (txt "00010203040506070809" ++ txt "A1")
    /\ Forall (fun p => length (pk_words p) = 2%nat
                        /\ hex_value (pk_words p) = pk_size p / 3)
              (packets out).
Proof.
  apply (word_count_byte 40 18 2 SpaceY _ _ _ _ _ 10); reflexivity || lia.
Defined.

(* ================================================================== *)
(** * Packet names past the 24-bit range *)






Section PacketNames.

Variables (pkt_size mem_space : Z) (sp : space) (line : list ascii).
Hypothesis Hspace : known_space mem_space = Some sp.
Hypothesis Hsize : 6 < pkt_size.


End PacketNames.



(* ================================================================== *)
(** * What follows the payload *)

Lemma payload_loop_local pkt_size mem_space line line' :
  forall fuel w r off tmp body post post',
    1 <= r -> 0 <= off ->
    skipn (Z.to_nat off) line = body ++ post ->
    skipn (Z.to_nat off) line' = body ++ post' ->
    Z.of_nat (length body) = 2 * r ->
    payload_loop fuel pkt_size mem_space line w r off tmp
    = payload_loop fuel pkt_size mem_space line' w r off tmp.
Proof.
  induction fuel as [| fuel IH]; intros w r off tmp body post post'
    Hr Hoff Hbuf Hbuf' Hlen; [reflexivity |].
  cbn [payload_loop].
  destruct (w + 6 <? pkt_size).
  - destruct body as [| c0 [| c1 body']]; cbn [length] in Hlen; try lia.
    cbn [app] in Hbuf, Hbuf'.
    destruct (at_skipn _ _ _ _ _ Hoff Hbuf) as (-> & -> & Hnext).
    destruct (at_skipn _ _ _ _ _ Hoff Hbuf') as (-> & -> & Hnext').
    destruct (Z.eqb_spec (r - 1) 0); [reflexivity |].
    f_equal. apply (IH _ _ _ _ body' post post'); lia || assumption.
  - destruct (known_space mem_space); [| reflexivity].
    destruct (Z.eqb_spec r 0); [reflexivity |].
    do 3 f_equal. apply (IH _ _ _ _ body post post'); lia || assumption.
Qed.

Lemma emit_record_local :
  forall fuel pkt_size mem_space l0 l1 addr payload rest rest',
    forallb is_hex [l0; l1] = true ->
    1 <= hex_value [l0; l1] - 4 ->
    length addr = 6%nat ->
    Z.of_nat (length payload) = 2 * (hex_value [l0; l1] - 4) ->
    forget (emit_record fuel pkt_size mem_space
              (s2_line l0 l1 addr payload rest'))
    = forget (emit_record fuel pkt_size mem_space
                (s2_line l0 l1 addr payload rest)).
Proof.
  intros fuel pkt_size mem_space l0 l1 addr payload rest rest'
         Hlen Hl Haddr Hpay.
  do 6 (destruct addr as [| ? addr]; [discriminate |]).
  destruct addr; [| discriminate].
  rewrite !emit_record_s2. cbv zeta.
  destruct (known_space mem_space); [| reflexivity].
  assert (Hscan : scanned [l0; l1] = hex_value [l0; l1]).
  { unfold scanned.
    now rewrite sscanf_hex by (assumption || discriminate || (simpl; lia)). }
  rewrite (payload_loop_local pkt_size mem_space (payload ++ rest')
             (payload ++ rest) fuel 0 _ 0 _ payload rest' rest);
    try reflexivity; try lia.
  destruct (payload_loop fuel pkt_size mem_space (payload ++ rest) 0 _ 0 _);
    reflexivity.
Qed.

(** X6. For an S2 record whose hex length field announces at least
    one payload byte (it is 5 or more), with six address characters, and
    whose line holds the payload characters that the length field
    announces: what the S2 branch writes and how it ends do not depend on
    what follows these payload characters in the line buffer, be it the
    checksum or the bytes that older, longer lines left behind. *)
Theorem checksum_never_read :
  forall fuel pkt_size mem_space l0 l1 addr payload rest rest',
    forallb is_hex [l0; l1] = true ->
    1 <= hex_value [l0; l1] - 4 ->
    length addr = 6%nat ->
    Z.of_nat (length payload) = 2 * (hex_value [l0; l1] - 4) ->
    forget (emit_record fuel pkt_size mem_space
              (s2_line l0 l1 addr payload rest'))
    = forget (emit_record fuel pkt_size mem_space
                (s2_line l0 l1 addr payload rest)).
Proof.
  exact emit_record_local.
Qed.

Lemma checksum_never_read_witness :
  forget (emit_record 40 18 2
            (s2_line "0" "7" (txt "001234") (txt "010203") (txt "FF")))
  = forget (emit_record 40 18 2
              (s2_line "0" "7" (txt "001234") (txt "010203") (txt "A1"))).
Proof.
  apply (checksum_never_read 40 18 2); reflexivity || (vm_compute; discriminate).
Defined.

(* ================================================================== *)
(** * Reading tokens *)

Lemma skip_ws_spaces ws s : forallb isspace ws = true -> skip_ws (ws ++ s) = skip_ws s.
Proof.
  induction ws as [| c ws IH]; [reflexivity |]. simpl.
  intros H. apply andb_true_iff in H as [-> H]. auto.
Qed.

Lemma skip_ws_only ws : forallb isspace ws = true -> skip_ws ws = [].
Proof.
  intros H. rewrite <- (app_nil_r ws). now rewrite skip_ws_spaces.
Qed.

Lemma token_text text rest :
  no_space text = true ->
  (rest = [] \/ exists c rest', rest = c :: rest' /\ isspace c = true) ->
  token (text ++ rest) = (text, rest).
Proof.
  intros Htext Hrest. induction text as [| c text IH].
  - destruct Hrest as [-> | (c & rest' & -> & Hc)]; [reflexivity |].
    simpl. now rewrite Hc.
  - simpl in Htext. apply andb_true_iff in Htext as [Hc Htext].
    cbn [app token]. apply negb_true_iff in Hc. rewrite Hc.
    now rewrite (IH Htext).
Qed.

(** [in >> line] on a stream that holds white space, one token and
    either nothing or more white space. *)
Lemma extract_token ws text rest line :
  forallb isspace ws = true ->
  text <> [] -> no_space text = true ->
  (rest = [] \/ exists c rest', rest = c :: rest' /\ isspace c = true) ->
  extract {| chars := ws ++ text ++ rest; eofbit := false |} line
  = if Z.of_nat (length text) + 1 <=? Z.of_nat (length line)
    then Some ({| chars := rest; eofbit := is_nil rest |}, store text line)
    else None.
Proof.
  intros Hws Hne Htext Hrest. unfold extract. cbn [chars].
  rewrite skip_ws_spaces by exact Hws.
  destruct text as [| c text]; [congruence |].
  pose proof Htext as Hall. simpl in Htext.
  apply andb_true_iff in Htext as [Hc _]. apply negb_true_iff in Hc.
  cbn [app skip_ws]. rewrite Hc.
  change (c :: text ++ rest) with ((c :: text) ++ rest).
  now rewrite (token_text _ _ Hall Hrest).
Qed.

(** [in >> line] at the end of the input: nothing is stored. *)
Lemma extract_end ws line :
  forallb isspace ws = true ->
  extract {| chars := ws; eofbit := false |} line
  = Some ({| chars := []; eofbit := true |}, line).
Proof.
  intros Hws. unfold extract. cbn [chars]. now rewrite skip_ws_only.
Qed.

Lemma store_length text line :
  (length text + 1 <= length line)%nat ->
  length (store text line) = length line.
Proof.
  intros H. unfold store. rewrite length_app. cbn [length].
  rewrite length_skipn. lia.
Qed.

Lemma entry_text_nonempty e : entry_ok e -> entry_text e <> [].
Proof.
  destruct e; cbn; intros [_ H]; try discriminate. tauto.
Qed.

Lemma stream_head more sep :
  seps_ok more -> forallb isspace sep = true -> (more <> [] -> sep <> []) ->
  Forall entry_ok (map fst more) ->
  sep ++ stream more = []
  \/ exists c rest', sep ++ stream more = c :: rest' /\ isspace c = true.
Proof.
  intros Hseps Hsep Hne Hok.
  destruct sep as [| c sep].
  - destruct more as [| [e s] more]; [now left |].
    exfalso. now apply Hne.
  - right. simpl in Hsep. apply andb_true_iff in Hsep as [Hc _].
    exists c, (sep ++ stream more). split; [reflexivity | exact Hc].
Qed.

(* ================================================================== *)
(** * The body of the record loop on one token *)

Lemma body_switch fuel pkt_size line mem_space fill m0 m1 tail :
  length fill = 4%nat ->
  record_body fuel pkt_size
    (store (entry_text (Switch fill m0 m1 tail)) line) mem_space
  = Next [] (store (entry_text (Switch fill m0 m1 tail)) line,
             match sscanf_x [m0; m1] with
             | Some v => v
             | None => mem_space
             end).
Proof.
  intros Hfill.
  do 4 (destruct fill as [| ? fill]; [discriminate |]).
  destruct fill; [| discriminate]. reflexivity.
Qed.

Lemma record_is_other d text line :
  text <> [] -> starts_S d text = false -> code d <> 0 ->
  record_is (store text line) d = Some false.
Proof.
  intros Hne Hs Hd. destruct text as [| c0 text]; [congruence |].
  unfold store. cbn [app record_is].
  destruct (code c0 =? 83) eqn:E0; [| reflexivity]. cbn [negb].
  destruct text as [| c1 text]; cbn [app].
  - f_equal. apply Z.eqb_neq. cbn. lia.
  - cbn [starts_S] in Hs. rewrite E0 in Hs. simpl in Hs. now rewrite Hs.
Qed.

Lemma record_is_total d text line :
  text <> [] -> exists b, record_is (store text line) d = Some b.
Proof.
  intros Hne. destruct text as [| c0 text]; [congruence |].
  unfold store. cbn [app record_is].
  destruct (negb (code c0 =? 83)); [eauto |].
  destruct text; cbn [app]; eauto.
Qed.

Lemma body_other fuel pkt_size line mem_space text :
  text <> [] -> starts_S "0" text = false -> starts_S "2" text = false ->
  record_body fuel pkt_size (store text line) mem_space
  = Next [] (store text line, 0).
Proof.
  intros Hne H0 H2. unfold record_body.
  rewrite (record_is_other "0" text line Hne H0) by (cbn; lia).
  rewrite (record_is_other "2" text line Hne H2) by (cbn; lia).
  destruct (record_is_total "8" text line Hne) as [[] ->]; reflexivity.
Qed.

Lemma hex_not_S ch : is_hex ch = true -> (code ch =? 83) = false.
Proof.
  unfold is_hex, hex_digit. generalize (code ch). intros n H. char_cases.
Qed.

(** A line that starts with a hex digit is no record of a known type:
    the body resets the memory space and writes nothing. *)
Lemma quiet_hex ch rest : is_hex ch = true -> quiet (ch :: rest).
Proof.
  intros H fuel pkt_size mem_space. exists 0.
  unfold record_body, record_is. now rewrite (hex_not_S _ H).
Qed.

Lemma quiet_fresh : quiet (repeat NUL 1024).
Proof. intros fuel pkt_size mem_space. exists 0. reflexivity. Qed.

(** The S2 branch on a stored data record in a known memory space
    writes what it writes for the record on its own and leaves [line]
    behind the address. *)
Lemma emit_stored fuel pkt_size mem_space sp l0 l1 addr payload sum line :
  known_space mem_space = Some sp ->
  6 < pkt_size ->
  entry_ok (Data l0 l1 addr payload sum) ->
  (502 <= fuel)%nat ->
  emit_record fuel pkt_size mem_space
    (store (entry_text (Data l0 l1 addr payload sum)) line)
  = Next (record_items pkt_size mem_space (Data l0 l1 addr payload sum))
         (skipn 10 (store (entry_text (Data l0 l1 addr payload sum)) line)).
Proof.
  intros Hsp Hsize (_ & Hlen & Hl & Haddr & _ & Hpay) Hfuel.
  set (l := hex_value [l0; l1] - 4) in *.
  assert (Hl251 : l <= 251).
  { pose proof (hex_value_bound [l0; l1]) as Hb. cbn [length] in Hb.
    change (16 ^ Z.of_nat 2) with 256 in Hb. unfold l. lia. }
  assert (Hshape : forall tail,
             s2_line l0 l1 addr payload sum ++ tail
             = s2_line l0 l1 addr payload (sum ++ tail)).
  { intros tail. unfold s2_line. now rewrite <- !app_assoc. }
  assert (Hskip : forall rest,
             skipn 10 (s2_line l0 l1 addr payload rest) = payload ++ rest).
  { intros rest.
    do 6 (destruct addr as [| ? addr]; [discriminate |]).
    destruct addr; [| discriminate]. reflexivity. }
  unfold record_items, buffer, store. cbn [entry_text].
  rewrite !Hshape, Hskip.
  set (fresh := sum ++ NUL :: repeat NUL _).
  set (stale := sum ++ NUL :: skipn _ line).
  destruct (emit_record_spec 502 pkt_size mem_space sp l0 l1 addr payload
              fresh l Hsp Hsize Hlen ltac:(unfold l; lia) Hl Haddr Hpay
              ltac:(lia))
    as (out & Hrun & _).
  destruct (emit_record_spec fuel pkt_size mem_space sp l0 l1 addr payload
              stale l Hsp Hsize Hlen ltac:(unfold l; lia) Hl Haddr Hpay
              ltac:(lia))
    as (out' & Hrun' & _).
  pose proof (emit_record_local fuel pkt_size mem_space l0 l1 addr payload
                fresh stale Hlen Hl Haddr Hpay) as Hsame.
  rewrite (emit_record_mono pkt_size mem_space
             (s2_line l0 l1 addr payload fresh) 502 fuel) in Hsame
    by (assumption || (rewrite Hrun; discriminate)).
  rewrite Hrun, Hrun' in Hsame. cbn [forget] in Hsame.
  rewrite Hrun, Hrun'. inversion Hsame. reflexivity.
Qed.

Lemma body_data_known fuel pkt_size mem_space sp l0 l1 addr payload sum line :
  known_space mem_space = Some sp ->
  6 < pkt_size ->
  entry_ok (Data l0 l1 addr payload sum) ->
  (502 <= fuel)%nat ->
  record_body fuel pkt_size
    (store (entry_text (Data l0 l1 addr payload sum)) line) mem_space
  = Next (record_items pkt_size mem_space (Data l0 l1 addr payload sum))
         (skipn 10 (store (entry_text (Data l0 l1 addr payload sum)) line),
          mem_space).
Proof.
  intros Hsp Hsize Hok Hfuel.
  pose proof (emit_stored fuel pkt_size mem_space sp l0 l1 addr payload sum
                line Hsp Hsize Hok Hfuel) as Hemit.
  unfold record_body. cbn [entry_text store s2_line txt list_ascii_of_string
                             app record_is] in *.
  cbn. cbn in Hemit. rewrite Hemit. cbn [bind write].
  now rewrite app_nil_r.
Qed.

Lemma body_data_unknown fuel pkt_size mem_space l0 l1 addr payload sum line :
  known_space mem_space = None ->
  entry_ok (Data l0 l1 addr payload sum) ->
  record_body fuel pkt_size
    (store (entry_text (Data l0 l1 addr payload sum)) line) mem_space
  = Ret [] [UnknownMemorySpace] (-1).
Proof.
  intros Hsp (_ & _ & _ & Haddr & _).
  do 6 (destruct addr as [| ? addr]; [discriminate |]).
  destruct addr; [| discriminate].
  unfold record_body, store. cbn [entry_text].
  assert (Hshape : forall tail,
             s2_line l0 l1 [a; a0; a1; a2; a3; a4] payload sum ++ tail
             = s2_line l0 l1 [a; a0; a1; a2; a3; a4] payload (sum ++ tail)).
  { intros tail. unfold s2_line. now rewrite <- !app_assoc. }
  rewrite Hshape.
  change (record_is (s2_line l0 l1 [a; a0; a1; a2; a3; a4] payload _) "0")
    with (Some false).
  change (record_is (s2_line l0 l1 [a; a0; a1; a2; a3; a4] payload _) "2")
    with (Some true).
  cbv iota. now rewrite unknown_space_aborts.
Qed.

(* ================================================================== *)
(** * The record loop, record by record *)

Lemma write_nil {A} (k : flow A) : write [] k = k.
Proof. destruct k; reflexivity. Qed.

Lemma skip_data l0 l1 addr payload sum line :
  length addr = 6%nat ->
  skipn 10 (store (s2_line l0 l1 addr payload sum) line)
  = payload ++ sum
    ++ NUL :: skipn (S (length (s2_line l0 l1 addr payload sum))) line.
Proof.
  intros Haddr.
  do 6 (destruct addr as [| ? addr]; [discriminate |]).
  destruct addr; [| discriminate].
  unfold store, s2_line. cbn [txt list_ascii_of_string app skipn].
  now rewrite <- app_assoc.
Qed.

Lemma quiet_switch fill m0 m1 tail line :
  length fill = 4%nat -> quiet (store (entry_text (Switch fill m0 m1 tail)) line).
Proof.
  intros Hfill fuel pkt_size mem_space. eexists. now apply body_switch.
Qed.

Lemma quiet_other text line :
  text <> [] -> starts_S "0" text = false -> starts_S "2" text = false ->
  quiet (store text line).
Proof.
  intros Hne H0 H2 fuel pkt_size mem_space. eexists. now apply body_other.
Qed.

Lemma quiet_data l0 l1 addr payload sum line :
  entry_ok (Data l0 l1 addr payload sum) ->
  quiet (skipn 10 (store (s2_line l0 l1 addr payload sum) line)).
Proof.
  intros (_ & _ & Hl & Haddr & Hhex & Hpay).
  rewrite skip_data by exact Haddr.
  destruct payload as [| ch payload]; [cbn [length] in Hpay; lia |].
  simpl in Hhex. apply andb_true_iff in Hhex as [Hch _].
  apply quiet_hex. exact Hch.
Qed.

Section Conversion.

Variable pkt_size : Z.
Hypothesis Hsize : 6 < pkt_size.

(** The record loop on an input of well-formed tokens does what
    [convert] says, one token after the other; white space before,
    between and after the tokens plays no part, and neither does the
    pass through the loop body that follows trailing white space. *)
Lemma record_loop_convert :
  forall es fuel ws line mem_space,
    Forall entry_ok (map fst es) ->
    seps_ok es ->
    forallb isspace ws = true ->
    quiet line ->
    (length es + 503 <= fuel)%nat ->
    record_loop fuel pkt_size {| chars := ws ++ stream es; eofbit := false |}
                line mem_space
    = convert pkt_size (Z.of_nat (length line)) mem_space es.
Proof.
  induction es as [| [e sep] more IH];
    intros fuel ws line mem_space Hok Hseps Hws Hquiet Hfuel.
  - destruct fuel as [| fuel]; [simpl in Hfuel; lia |].
    cbn [stream record_loop convert]. rewrite app_nil_r.
    rewrite (extract_end ws line Hws).
    destruct (Hquiet (S fuel) pkt_size mem_space) as [mem' ->].
    reflexivity.
  - destruct fuel as [| fuel]; [simpl in Hfuel; lia |].
    cbn [length] in Hfuel.
    cbn [map fst] in Hok. inversion Hok as [| ? ? He Hmore]; subst.
    destruct Hseps as (Hsep & Hnext & Hseps).
    pose proof (stream_head more sep Hseps Hsep Hnext Hmore) as Hhead.
    cbn [stream record_loop convert].
    rewrite (extract_token ws (entry_text e) (sep ++ stream more) line Hws
               (entry_text_nonempty e He) (proj1 He) Hhead).
    destruct (Z.leb_spec (Z.of_nat (length (entry_text e)) + 1)
                         (Z.of_nat (length line))) as [Hfit | Hbig].
    2:{ destruct (Z.ltb_spec (Z.of_nat (length line))
                             (Z.of_nat (length (entry_text e)) + 1));
        [reflexivity | lia]. }
    destruct (Z.ltb_spec (Z.of_nat (length line))
                         (Z.of_nat (length (entry_text e)) + 1)); [lia |].
    assert (Hlen : length (store (entry_text e) line) = length line)
      by (apply store_length; lia).
    (* what follows the token *)
    assert (Hrest :
              forall line' mem',
                quiet line' ->
                (if eofbit {| chars := sep ++ stream more;
                              eofbit := is_nil (sep ++ stream more) |}
                 then Next [] tt
                 else record_loop fuel pkt_size
                        {| chars := sep ++ stream more;
                           eofbit := is_nil (sep ++ stream more) |}
                        line' mem')
                = convert pkt_size (Z.of_nat (length line')) mem' more).
    { intros line' mem' Hq. cbn [eofbit].
      destruct sep as [| c sep].
      - destruct more as [| p more]; [reflexivity |].
        exfalso. now apply Hnext.
      - cbn [app is_nil]. apply (IH fuel (c :: sep)); try assumption. lia. }
    destruct e as [fill m0 m1 tail | l0 l1 addr payload sum | text].
    + destruct He as [_ Hfill].
      rewrite (body_switch _ _ _ _ _ _ _ _ Hfill). cbn [bind].
      rewrite write_nil, Hrest by (now apply quiet_switch).
      now rewrite Hlen.
    + destruct (known_space mem_space) as [sp |] eqn:Hsp.
      * rewrite (body_data_known (S fuel) pkt_size mem_space sp _ _ _ _ _ line
                   Hsp Hsize He) by lia.
        cbn [bind]. rewrite Hrest by (now apply quiet_data).
        do 2 f_equal. cbn [entry_text] in *.
        rewrite length_skipn, Hlen.
        assert (11 <= length line)%nat.
        { unfold s2_line in Hfit. rewrite !length_app in Hfit.
          destruct He as (_ & _ & _ & Haddr & _). rewrite Haddr in Hfit.
          cbn [length txt list_ascii_of_string] in Hfit. lia. }
        lia.
      * now rewrite (body_data_unknown _ _ _ _ _ _ _ _ _ Hsp He).
    + destruct He as (_ & Hne & H0 & H2).
      cbn [entry_text] in *.
      rewrite (body_other _ _ _ _ _ Hne H0 H2). cbn [bind].
      rewrite write_nil, Hrest by (now apply quiet_other).
      now rewrite Hlen.
Qed.

End Conversion.

Lemma buildIncFile_convert :
  forall fuel pkt_size ws es,
    6 < pkt_size ->
    Forall entry_ok (map fst es) ->
    seps_ok es ->
    forallb isspace ws = true ->
    (length es + 503 <= fuel)%nat ->
    buildIncFile fuel (ws ++ stream es) pkt_size
    = finish (write [FileHeader] (convert pkt_size 1024 0 es)).
Proof.
  intros fuel pkt_size ws es Hsize Hok Hseps Hws Hfuel.
  unfold buildIncFile, finish.
  rewrite (record_loop_convert pkt_size Hsize es fuel ws (repeat NUL 1024) 0
             Hok Hseps Hws quiet_fresh Hfuel).
  rewrite repeat_length. reflexivity.
Qed.

Lemma convert_fits pkt_size es :
  forall room mem_space,
    fits room es ->
    convert pkt_size room mem_space es = translate pkt_size mem_space es.
Proof.
  induction es as [| [e sep] more IH]; intros room mem Hfit; [reflexivity |].
  destruct Hfit as [Hfit Hmore]. cbn [convert translate].
  destruct (Z.ltb_spec room (Z.of_nat (length (entry_text e)) + 1)); [lia |].
  destruct e; try (now apply IH).
  destruct (known_space mem); [| reflexivity].
  now rewrite (IH _ _ Hmore).
Qed.

(** X7. On an input made of white-space separated tokens, each an S0
    line (whose memory-space code is not a bare [0x]), a well-formed S2
    line (hex length field of 5 or more, six address characters, the
    announced payload in hex digits) or another token that starts with
    neither S0 nor S2, and each fitting in what is left of the line
    buffer, where every S2 record before it has moved [line] on by 10
    bytes: [buildIncFile] writes the file header and then does what the
    record-by-record conversion says.  It sets the memory space at each
    S0 line, resets it at every other token that is not an S2 line,
    converts each S2 record as it would convert it alone, in input order,
    and stops with -1 at an S2 record in an unknown space. *)
Theorem buildIncFile_by_records :
  forall fuel pkt_size ws es,
    6 < pkt_size ->
    Forall entry_ok (map fst es) ->
    forallb (fun p => code_plain (fst p)) es = true ->
    seps_ok es ->
    fits 1024 es ->
    forallb isspace ws = true ->
    (length es + 503 <= fuel)%nat ->
    buildIncFile fuel (ws ++ stream es) pkt_size
    = finish (write [FileHeader] (translate pkt_size 0 es)).
Proof.
  intros fuel pkt_size ws es Hsize Hok _ Hseps Hfit Hws Hfuel.
  rewrite (buildIncFile_convert fuel pkt_size ws es) by assumption.
  now rewrite (convert_fits pkt_size es 1024 0 Hfit).
Qed.

Ltac entries_ok :=
  repeat (constructor || split);
  try reflexivity; try discriminate; try (vm_compute; discriminate);
  try (intros _; discriminate); auto.

Lemma buildIncFile_by_records_witness :
  buildIncFile 600 ([] ++ stream sample_entries) 18
  = finish (write [FileHeader] (translate 18 0 sample_entries)).
Proof.
  apply (buildIncFile_by_records 600 18 [] sample_entries);
    [lia | entries_ok | reflexivity | entries_ok | cbn; lia | reflexivity
     | simpl; lia].
Defined.

(* ================================================================== *)
(** * Consequences for whole inputs *)

Lemma convert_tokens pkt_size es :
  forall es' room mem_space,
    map fst es = map fst es' ->
    convert pkt_size room mem_space es = convert pkt_size room mem_space es'.
Proof.
  induction es as [| [e sep] more IH]; intros [| [e' sep'] more'] room mem H;
    try discriminate; [reflexivity |].
  cbn [map fst] in H. inversion H; subst e'. cbn [convert].
  destruct (room <? _); [reflexivity |].
  destruct e; try (now apply IH).
  destruct (known_space mem); [| reflexivity]. f_equal. now apply IH.
Qed.

(** X8. For inputs whose tokens are S0 lines, well-formed S2 lines
    (hex length field of 5 or more, six address characters, the announced
    payload in hex digits) or other tokens that start with neither S0 nor
    S2, each fitting in what is left of the line buffer: white space does
    not matter.  Two such inputs with the same tokens give the same
    result, whatever blanks, tabs, LF or CR LF line ends stand before the
    first token, between the tokens and after the last one. *)
Theorem white_space_does_not_matter :
  forall fuel pkt_size ws ws' es es',
    6 < pkt_size ->
    map fst es = map fst es' ->
    Forall entry_ok (map fst es) ->
    fits 1024 es ->
    seps_ok es -> seps_ok es' ->
    forallb isspace ws = true -> forallb isspace ws' = true ->
    (length es + 503 <= fuel)%nat ->
    buildIncFile fuel (ws ++ stream es) pkt_size
    = buildIncFile fuel (ws' ++ stream es') pkt_size.
Proof.
  intros fuel pkt_size ws ws' es es' Hsize Hsame Hok _ Hseps Hseps' Hws Hws'
         Hfuel.
  assert (Hlen : length es' = length es)
    by (rewrite <- (length_map fst es'), <- Hsame; apply length_map).
  rewrite (buildIncFile_convert fuel pkt_size ws es) by assumption.
  rewrite (buildIncFile_convert fuel pkt_size ws' es');
    try assumption; try lia.
  - now rewrite (convert_tokens pkt_size es es').
  - now rewrite <- Hsame.
Qed.

Lemma white_space_does_not_matter_witness :
  buildIncFile 600 ([] ++ stream sample_entries) 18
  = buildIncFile 600
      ([LF; " "%char]
       ++ stream (map (fun '(e, _) => (e, ["013"%char; LF])) sample_entries))
      18.
Proof.
  apply (white_space_does_not_matter 600 18);
    [lia | reflexivity | entries_ok | cbn; lia | entries_ok | entries_ok
     | reflexivity | reflexivity | simpl; lia].
Defined.

Lemma convert_no_data pkt_size es :
  forall room mem_space,
    forallb (fun p => negb (is_data (fst p))) es = true ->
    Forall (fun p => Z.of_nat (length (entry_text (fst p))) < room) es ->
    convert pkt_size room mem_space es = Next [] tt.
Proof.
  induction es as [| [e sep] more IH]; intros room mem Hnone Hfit;
    [reflexivity |].
  cbn [forallb fst] in Hnone. apply andb_true_iff in Hnone as [He Hnone].
  inversion Hfit as [| ? ? Hfit1 Hfit2]; subst. cbn [fst] in Hfit1.
  cbn [convert]. destruct (Z.ltb_spec room (Z.of_nat (length (entry_text e)) + 1));
    [lia |].
  destruct e; try discriminate; now apply IH.
Qed.

(** X9. An input without S2 records, also an empty one or one of white
    space only, yields the file header and nothing else, and
    [buildIncFile] returns 0. *)
Theorem header_only_without_data :
  forall fuel pkt_size ws es,
    6 < pkt_size ->
    Forall entry_ok (map fst es) ->
    seps_ok es ->
    forallb isspace ws = true ->
    (length es + 503 <= fuel)%nat ->
    forallb (fun p => negb (is_data (fst p))) es = true ->
    Forall (fun p => Z.of_nat (length (entry_text (fst p))) < 1024) es ->
    buildIncFile fuel (ws ++ stream es) pkt_size
    = Returned [FileHeader] [] 0.
Proof.
  intros fuel pkt_size ws es Hsize Hok Hseps Hws Hfuel Hnone Hfit.
  rewrite (buildIncFile_convert fuel pkt_size ws es) by assumption.
  now rewrite (convert_no_data pkt_size es 1024 0 Hnone Hfit).
Qed.

Lemma header_only_without_data_witness :
  buildIncFile 600
    ([LF] ++ stream [ (Switch (txt "0300") "0" "2" (txt "FA"), [LF]);
                      (Other (txt "S804000000FB"), []) ]) 18
  = Returned [FileHeader] [] 0.
Proof.
  apply (header_only_without_data 600 18);
    [lia | entries_ok | entries_ok | reflexivity | simpl; lia | reflexivity
     | repeat constructor; vm_compute; reflexivity].
Defined.

Lemma convert_all_data pkt_size mem_space sp ds :
  known_space mem_space = Some sp ->
  forall room,
    forallb (fun p => is_data (fst p)) ds = true ->
    fits room ds ->
    convert pkt_size room mem_space ds
    = Next (flat_map (fun p => record_items pkt_size mem_space (fst p)) ds) tt.
Proof.
  intros Hsp. induction ds as [| [e sep] more IH]; intros room Hdata Hfit;
    [reflexivity |].
  cbn [forallb fst] in Hdata. apply andb_true_iff in Hdata as [He Hdata].
  destruct Hfit as [Hfit Hmore]. cbn [convert flat_map fst].
  destruct (Z.ltb_spec room (Z.of_nat (length (entry_text e)) + 1)); [lia |].
  destruct e; try discriminate.
  rewrite Hsp, (IH _ Hdata Hmore). reflexivity.
Qed.

(** X11. An input that is an S0 line whose code [sscanf_s] reads as a
    known memory space, followed by well-formed S2 lines only (hex length
    field of 5 or more, six address characters, the announced payload in
    hex digits), each token fitting in what is left of the line buffer,
    is converted record by record: the output is the file header followed
    by the packets of each record, as the record alone would give them,
    in the order of the input, and [buildIncFile] returns 0. *)
Theorem records_in_input_order :
  forall fuel pkt_size ws fill m0 m1 tail sep ds v sp,
    6 < pkt_size ->
    Forall entry_ok (map fst ((Switch fill m0 m1 tail, sep) :: ds)) ->
    seps_ok ((Switch fill m0 m1 tail, sep) :: ds) ->
    forallb isspace ws = true ->
    (length ds + 504 <= fuel)%nat ->
    sscanf_x [m0; m1] = Some v ->
    known_space v = Some sp ->
    forallb (fun p => is_data (fst p)) ds = true ->
    fits 1024 ((Switch fill m0 m1 tail, sep) :: ds) ->
    buildIncFile fuel (ws ++ stream ((Switch fill m0 m1 tail, sep) :: ds))
                 pkt_size
    = Returned
        (FileHeader
         :: flat_map (fun p => record_items pkt_size v (fst p)) ds) [] 0.
Proof.
  intros fuel pkt_size ws fill m0 m1 tail sep ds v sp
         Hsize Hok Hseps Hws Hfuel Hscan Hsp Hdata [Hfit Hfits].
  rewrite (buildIncFile_convert fuel pkt_size ws _ Hsize Hok Hseps Hws)
    by (cbn [length]; lia).
  cbn [convert].
  destruct (Z.ltb_spec 1024
              (Z.of_nat (length (entry_text (Switch fill m0 m1 tail))) + 1));
    [lia |].
  rewrite Hscan, (convert_all_data pkt_size v sp ds Hsp 1024 Hdata Hfits).
  reflexivity.
Qed.

Lemma records_in_input_order_witness :
  buildIncFile 600
    ([] ++ stream [ (Switch (txt "0300") "0" "4" (txt "F8"), [LF]);
                    (Data "0" "7" (txt "001234") (txt "010203") (txt "A1"),
                     [LF]);
                    (Data "0" "A" (txt "00ABCD") (txt "0A0B0C0D0E0F")
                          (txt "55"), []) ]) 9
  = Returned
      (FileHeader
       :: flat_map (fun p => record_items 9 4 (fst p))
            [ (Data "0" "7" (txt "001234") (txt "010203") (txt "A1"), [LF]);
              (Data "0" "A" (txt "00ABCD") (txt "0A0B0C0D0E0F") (txt "55"),
               []) ]) [] 0.
Proof.
  apply (records_in_input_order 600 9 [] _ _ _ _ _ _ 4 SpaceP);
    [lia | entries_ok | entries_ok | reflexivity | simpl; lia | reflexivity
     | reflexivity | reflexivity | cbn; lia].
Defined.

(* ================================================================== *)
(** * Every output is a file header and whole packets *)

Lemma shaped_app out1 :
  forall s mid out2 final,
    shaped s out1 mid -> shaped mid out2 final -> shaped s (out1 ++ out2) final.
Proof.
  induction out1 as [| it out1 IH]; intros s mid out2 final H1 H2.
  - simpl in H1. now subst.
  - cbn [app]. destruct s, it; cbn [shaped] in *; try contradiction;
      try (eapply IH; eassumption).
    + destruct H1 as (-> & -> & H1). eauto.
    + destruct H1 as (-> & H1). eauto.
Qed.

Lemma flow_shaped_write {A} s mid items (k : flow A) next ret :
  shaped s items mid -> flow_shaped mid k next ret ->
  flow_shaped s (write items k) next ret.
Proof.
  intros Hitems Hk. destruct k; cbn [write flow_shaped] in *.
  - eauto using shaped_app.
  - destruct Hk as (Hk & -> & ->). eauto using shaped_app.
  - destruct Hk as [final Hk]. eauto using shaped_app.
  - exact I.
Qed.

Lemma flow_shaped_bind {A B} s mid (m : flow A) (k : A -> flow B) next ret :
  flow_shaped s m mid ret ->
  (forall a, flow_shaped mid (k a) next ret) ->
  flow_shaped s (bind m k) next ret.
Proof.
  intros Hm Hk. destruct m; cbn [bind flow_shaped] in *; try assumption.
  eapply flow_shaped_write; eauto.
Qed.

(** The payload loop starts among the bytes of an open array; it is
    left there, and returns only after closing the array. *)
Lemma payload_loop_shaped pkt_size mem_space line :
  forall fuel w r off tmp,
    flow_shaped Body (payload_loop fuel pkt_size mem_space line w r off tmp)
                Body Outside.
Proof.
  induction fuel as [| fuel IH]; intros w r off tmp; [exact I |].
  cbn [payload_loop].
  destruct (w + 6 <? pkt_size).
  - destruct (at_ line off); [| now exists Body].
    destruct (at_ line (off + 1)); [| now exists Body].
    apply (flow_shaped_write Body Body); [reflexivity |].
    destruct (r - 1 =? 0); [reflexivity | apply IH].
  - apply (flow_shaped_write Body Outside); [reflexivity |].
    destruct (known_space mem_space) as [sp |]; [| now repeat split].
    eapply (flow_shaped_write Outside (Opened sp));
      [unfold declare; cbn; auto |].
    eapply (flow_shaped_write (Opened sp) Body);
      [unfold addr_bytes; cbn; auto |].
    destruct (r =? 0); [reflexivity | apply IH].
Qed.

Lemma emit_record_shaped fuel pkt_size mem_space line :
  flow_shaped Outside (emit_record fuel pkt_size mem_space line)
              Outside Outside.
Proof.
  unfold emit_record.
  destruct (at_ line 2); [| now exists Outside].
  destruct (at_ line 3); [| now exists Outside].
  destruct (skipn 4 line) as [| t0 [| t1 [| t2 [| t3 [| t4 [| t5 l]]]]]];
    try (now exists Outside).
  destruct (known_space mem_space) as [sp |]; [| now repeat split].
  eapply (flow_shaped_write Outside (Opened sp));
    [unfold declare; cbn; auto |].
  eapply (flow_shaped_write (Opened sp) Body);
    [unfold addr_bytes; cbn; auto |].
  eapply flow_shaped_bind; [apply payload_loop_shaped |].
  intros _. reflexivity.
Qed.

Lemma record_body_shaped fuel pkt_size line mem_space :
  flow_shaped Outside (record_body fuel pkt_size line mem_space)
              Outside Outside.
Proof.
  unfold record_body.
  destruct (record_is line "0") as [[] |]; try (now exists Outside).
  - destruct (at_ line 6); [| now exists Outside].
    destruct (at_ line 7); [reflexivity | now exists Outside].
  - destruct (record_is line "2") as [[] |]; try (now exists Outside).
    + eapply flow_shaped_bind; [apply emit_record_shaped |].
      intros line'. reflexivity.
    + destruct (record_is line "8") as [[] |];
        reflexivity || now exists Outside.
Qed.

Lemma record_loop_shaped pkt_size :
  forall fuel inp line mem_space,
    flow_shaped Outside (record_loop fuel pkt_size inp line mem_space)
                Outside Outside.
Proof.
  induction fuel as [| fuel IH]; intros inp line mem_space; [exact I |].
  cbn [record_loop].
  destruct (extract inp line) as [[inp' line'] |]; [| now exists Outside].
  eapply flow_shaped_bind; [apply record_body_shaped |].
  intros [line'' mem']. destruct (eofbit inp'); [reflexivity | apply IH].
Qed.

(** X12. Whatever the input and the packet size, what [buildIncFile]
    has written when it returns is the file header followed by whole
    packets, each a length constant, the array of the same name and
    memory space, the PPP header of that space, the address bytes, any
    number of payload bytes and the closing; when it crashes, what it has
    written is the beginning of such a file. *)
Theorem output_is_whole_packets :
  forall fuel input pkt_size,
    match buildIncFile fuel input pkt_size with
    | Returned out _ _ => shaped Start out Outside
    | Crashed out => exists final, shaped Start out final
    | Diverged => True
    end.
Proof.
  intros fuel input pkt_size. unfold buildIncFile.
  pose proof (flow_shaped_write Start Outside [FileHeader]
                (record_loop fuel pkt_size
                   {| chars := input; eofbit := false |} (repeat NUL 1024) 0)
                Outside Outside eq_refl
                (record_loop_shaped pkt_size fuel _ _ _)) as H.
  destruct (write [FileHeader] _); cbn [flow_shaped] in H;
    try assumption. tauto.
Qed.

(* ================================================================== *)
(** * More on the hex decoder *)

(** X14. The decoder reads back what ["%0kX"] prints: for a number
    that fits the width (and the 32 bits of the printed [int]) and a field
    of at most [width / 4] digits, decoding the printed text gives the
    number, with no overflow message. *)
Theorem atoh_reads_printed_hex :
  forall w k n,
    (k <= Z.to_nat (bits w / 4))%nat ->
    0 <= n < 2 ^ bits w ->
    n < 2 ^ 32 ->
    atoh w (sprintf_X k n) = (n, false).
Proof.
  intros w k n Hk Hn Hn32.
  destruct (sprintf_X_value k n ltac:(lia)) as [Hhex Hval].
  rewrite atoh_spec.
  assert (Hpre : forall t, forallb is_hex t = true -> hex_prefix t = t).
  { induction t as [| c t IH]; simpl; [reflexivity |].
    intros H. apply andb_true_iff in H as [-> H]. f_equal. auto. }
  rewrite (Hpre _ Hhex).
  assert (Hlen : (length (sprintf_X k n) <= Z.to_nat (bits w / 4))%nat).
  { unfold sprintf_X. rewrite hex_digits_length, Z.mod_small by lia.
    assert (Hd : (ndigits 8 n <= Z.to_nat (bits w / 4))%nat).
    { destruct w.
      - apply ndigits_le; [exact Hn | cbn; lia].
      - apply ndigits_le; [exact Hn | cbn; lia].
      - apply ndigits_le; [exact Hn | cbn; lia].
      - etransitivity; [apply (ndigits_le 8 8); [| lia] | cbn; lia].
        change (16 ^ Z.of_nat 8) with (2 ^ 32). lia. }
    lia. }
  rewrite firstn_all2 by exact Hlen. rewrite Hval. f_equal.
  apply Nat.ltb_ge. exact Hlen.
Qed.

Lemma atoh_reads_printed_hex_witness :
  atoh W8 (sprintf_X 2 171) = (171, false).
Proof.
  apply (atoh_reads_printed_hex W8 2 171); cbn; lia.
Defined.

Lemma to_upper_digit ch : hex_digit (to_upper ch) = hex_digit ch.
Proof.
  unfold to_upper.
  destruct ((97 <=? code ch) && (code ch <=? 122)) eqn:E; [| reflexivity].
  apply andb_true_iff in E as [Hlo Hhi].
  apply Z.leb_le in Hlo, Hhi.
  assert (Hcode : code (ascii_of_N (Z.to_N (code ch - 32))) = code ch - 32).
  { unfold code at 1. rewrite N_ascii_embedding by lia. lia. }
  unfold hex_digit. rewrite Hcode. clear Hcode. revert Hlo Hhi.
  generalize (code ch). intros n Hlo Hhi. char_cases; f_equal; lia.
Qed.

Lemma to_upper_nul ch : is_nul (to_upper ch) = is_nul ch.
Proof.
  unfold to_upper.
  destruct ((97 <=? code ch) && (code ch <=? 122)) eqn:E; [| reflexivity].
  apply andb_true_iff in E as [Hlo Hhi].
  apply Z.leb_le in Hlo, Hhi.
  assert (Hcode : code (ascii_of_N (Z.to_N (code ch - 32))) = code ch - 32).
  { unfold code at 1. rewrite N_ascii_embedding by lia. lia. }
  unfold is_nul. rewrite Hcode.
  destruct (Z.eqb_spec (code ch - 32) 0), (Z.eqb_spec (code ch) 0);
    reflexivity || lia.
Qed.

(** X15. The decoder does not tell upper case from lower case: a
    string and its upper-case form decode to the same value, with the
    same overflow message or none. *)
Theorem atoh_ignores_case :
  forall w s, atoh w (map to_upper s) = atoh w s.
Proof.
  intros w s. unfold atoh. generalize 0 (Z.shiftl (sizeof w) 1).
  induction s as [| ch s IH]; intros value bail; [reflexivity |].
  cbn [map atoh_loop]. rewrite to_upper_nul, to_upper_digit.
  destruct (is_nul ch); [reflexivity |].
  destruct (hex_digit ch); [| reflexivity].
  destruct (bail =? 0); [reflexivity | apply IH].
Qed.

(* ================================================================== *)
(** * The S0 branch *)

Lemma sscanf_no_digit m0 m1 :
  hex_digit m0 = None -> isspace m0 = false ->
  code m0 <> 43 -> code m0 <> 45 ->
  sscanf_x [m0; m1] = None.
Proof.
  intros Hd Hsp Hplus Hminus. unfold sscanf_x. cbn [cstr].
  destruct (is_nul m0); [reflexivity |].
  assert (Hskip : forall rest, skip_ws (m0 :: rest) = m0 :: rest)
    by (intros rest; cbn [skip_ws]; now rewrite Hsp).
  rewrite Hskip.
  destruct (Z.eqb_spec (code m0) 45); [contradiction |].
  destruct (Z.eqb_spec (code m0) 43); [contradiction |].
  assert (H48 : (code m0 =? 48) = false).
  { apply Z.eqb_neq. intros E. unfold hex_digit in Hd. rewrite E in Hd.
    discriminate. }
  unfold scan_unsigned.
  destruct (is_nul m1); cbn [cstr scan_hex]; rewrite ?H48; cbn [andb scan_hex];
    rewrite Hd; reflexivity.
Qed.

(** X16. An S0 line writes nothing and leaves [line] where it is.  When
    the two characters at offset 6 are hex digits, their value becomes the
    memory space.  When the first of them is no hex digit (nor a sign),
    [sscanf_s] stores nothing and the memory space stays what it was: it
    is not reset. *)
Theorem switch_sets_space :
  forall fuel pkt_size line mem_space fill m0 m1 tail,
    length fill = 4%nat ->
    exists v,
      record_body fuel pkt_size
        (store (entry_text (Switch fill m0 m1 tail)) line) mem_space
      = Next [] (store (entry_text (Switch fill m0 m1 tail)) line, v)
      /\ (forallb is_hex [m0; m1] = true -> v = hex_value [m0; m1])
      /\ (hex_digit m0 = None -> isspace m0 = false ->
          code m0 <> 43 -> code m0 <> 45 -> v = mem_space).
Proof.
  intros fuel pkt_size line mem_space fill m0 m1 tail Hfill.
  eexists. split; [now apply body_switch |]. split.
  - intros Hhex. now rewrite sscanf_hex by (assumption || discriminate
                                            || (simpl; lia)).
  - intros Hd Hsp Hplus Hminus. now rewrite sscanf_no_digit.
Qed.

Lemma switch_sets_space_witness :
  exists v,
    record_body 5 18
      (store (entry_text (Switch (txt "0300") "Z" "Z" (txt "FA")))
             (repeat NUL 1024)) 2
    = Next [] (store (entry_text (Switch (txt "0300") "Z" "Z" (txt "FA")))
                     (repeat NUL 1024), v)
    /\ (forallb is_hex [ "Z"; "Z" ]%char = true
        -> v = hex_value [ "Z"; "Z" ]%char)
    /\ (hex_digit "Z" = None -> isspace "Z" = false ->
        code "Z" <> 43 -> code "Z" <> 45 -> v = 2).
Proof.
  apply (switch_sets_space 5 18 (repeat NUL 1024) 2 (txt "0300") "Z" "Z"
           (txt "FA")).
  reflexivity.
Defined.

(* ================================================================== *)
(** * The command line *)

Lemma handle_arg_cases fs st arg :
  handle_arg fs st arg
  = match arg with
    | [] => Stop (Killed [])
    | _ :: rest =>
        if is_N arg then Go (flag_N st arg)
        else if is_I arg then Go (flag_I fs st arg)
        else if is_O arg then Go (flag_O fs st arg)
        else Stop (Exited 1 []
                     (cli_err st ++ [UnknownParameter (cstr rest)]))
    end.
Proof. destruct arg as [| c0 [| c1 rest]]; reflexivity. Qed.

Lemma handle_args_app fs l1 :
  forall st l2,
    handle_args fs st (l1 ++ l2)
    = match handle_args fs st l1 with
      | Go st' => handle_args fs st' l2
      | Stop e => Stop e
      end.
Proof.
  induction l1 as [| a l1 IH]; intros st l2; [reflexivity |].
  cbn [app handle_args]. destruct (handle_arg fs st a); [apply IH | reflexivity].
Qed.

Lemma handle_args_unknown fs l :
  forall st,
    Forall (fun a => a <> []) l ->
    Exists (fun a => known_option a = false) l ->
    exists err, handle_args fs st l = Stop (Exited 1 [] err).
Proof.
  induction l as [| a l IH]; intros st Hne Hbad.
  - inversion Hbad.
  - inversion Hne as [| ? ? Ha Hl]; subst. cbn [handle_args].
    rewrite handle_arg_cases. destruct a as [| c0 rest]; [congruence |].
    unfold known_option in Hbad.
    destruct (is_N (c0 :: rest)) eqn:EN;
      [| destruct (is_I (c0 :: rest)) eqn:EI;
         [| destruct (is_O (c0 :: rest)) eqn:EO; [| eauto]]];
      (apply IH; [assumption |]; inversion Hbad as [? ? Hx | ? ? Hx]; subst;
       [rewrite ?EN, ?EI, ?EO in Hx; discriminate | assumption]).
Qed.

(** X17. An argument whose second character is none of N, n, I, i, O, o
    ends the process with status 1 wherever it stands on the command
    line: nothing is converted. *)
Theorem unknown_option_exits :
  forall fuel fs prog args,
    Forall (fun a => a <> []) args ->
    Exists (fun a => known_option a = false) args ->
    exists err, main fuel fs (prog :: args) = Exited 1 [] err.
Proof.
  intros fuel fs prog args Hne Hbad. unfold main, startup.
  destruct (handle_args_unknown fs (rev args) cli0) as [err ->].
  - now apply Forall_rev.
  - apply Exists_exists in Hbad as (a & Hin & Ha).
    apply Exists_exists. exists a. split; [now apply in_rev in Hin | exact Ha].
  - eauto.
Qed.

Lemma unknown_option_exits_witness :
  exists err,
    main 5 (one_file "in.srec" scenario1)
         [txt "srec2inc"; txt "-Iin.srec"; txt "-X"; txt "-N18"]
    = Exited 1 [] err.
Proof.
  apply (unknown_option_exits 5 (one_file "in.srec" scenario1)
           (txt "srec2inc") [txt "-Iin.srec"; txt "-X"; txt "-N18"]).
  - repeat constructor; discriminate.
  - apply Exists_cons_tl, Exists_cons_hd. reflexivity.
Defined.

Lemma flag_N_files st arg : same_files (flag_N st arg) st.
Proof.
  unfold flag_N. destruct (atoh W32 (skipn 2 arg)) as [v overflow].
  destruct (negb (Z.rem (to_int32 v) 3 =? 0)); [repeat split |].
  destruct (to_int32 v <? 9); repeat split.
Qed.





Lemma startup_go fs prog args st :
  startup fs (prog :: args) = Go st ->
  handle_args fs cli0 (rev args) = Go st /\ i_flag st = FLAG_OK.
Proof.
  unfold startup.
  destruct (handle_args fs cli0 (rev args)) as [st1 |]; [| discriminate].
  destruct (i_flag st1) eqn:Ei; cbn [flag_ok negb]; try discriminate.
  destruct (flag_ok (o_flag st1)); [intros H; inversion H; now subst |].
  destruct (o_flag st1); try discriminate;
    (destruct (creatable fs _); [intros H; inversion H; now subst
                                | discriminate]).
Qed.



Lemma flag_N_accepted st arg :
  packet_size (flag_N st arg)
  = accepted_size (hex_value (firstn 8 (hex_prefix (skipn 2 arg)))).
Proof.
  rewrite flag_N_packet_size, atoh_spec. cbn [fst]. cbv zeta.
  change (Z.to_nat (bits W32 / 4)) with 8%nat.
  set (s := firstn 8 (hex_prefix (skipn 2 arg))).
  assert (Hv : 0 <= hex_value s < 2 ^ 32).
  { pose proof (hex_value_bound s) as Hb.
    assert (Hs : (length s <= 8)%nat) by apply firstn_le_length.
    assert (16 ^ Z.of_nat (length s) <= 16 ^ 8)
      by (apply Z.pow_le_mono_r; lia).
    change (2 ^ 32) with (16 ^ 8). lia. }
  unfold accepted_size, to_int32. rewrite Z.mod_small by exact Hv.
  destruct (Z.ltb_spec (hex_value s) (2 ^ 31)) as [Hlt | Hge].
  - rewrite Z.rem_mod_nonneg by lia. rewrite andb_true_r.
    destruct (Z.eqb_spec (hex_value s mod 3) 0); cbn [negb andb];
      [| reflexivity].
    destruct (Z.ltb_spec (hex_value s) 9), (Z.leb_spec 9 (hex_value s));
      reflexivity || lia.
  - rewrite andb_false_r.
    destruct (Z.rem (hex_value s - 2 ^ 32) 3 =? 0); cbn [negb];
      [| reflexivity].
    destruct (Z.ltb_spec (hex_value s - 2 ^ 32) 9); [reflexivity | lia].
Qed.

Lemma handle_args_no_N fs l :
  forall st st',
    forallb (fun a => negb (is_N a)) l = true ->
    handle_args fs st l = Go st' ->
    packet_size st' = packet_size st.
Proof.
  induction l as [| arg l IH]; intros st st' Hno H.
  - now inversion H.
  - cbn [forallb] in Hno. apply andb_true_iff in Hno as [Harg Hno].
    apply negb_true_iff in Harg. cbn [handle_args] in H.
    destruct (handle_arg fs st arg) as [st1 |] eqn:E; [| discriminate].
    rewrite (IH _ _ Hno H). rewrite handle_arg_cases in E.
    destruct arg as [| c0 rest]; [discriminate |]. rewrite Harg in E.
    destruct (is_I _); [inversion E; apply flag_I_packet_size |].
    destruct (is_O _); [inversion E; apply flag_O_packet_size | discriminate].
Qed.

(** X19. When -N is given more than once, the first one on the command
    line decides: the arguments are handled from the last to the first,
    and each -N overwrites the packet size. *)
Theorem first_N_decides :
  forall fs prog pre arg post st,
    forallb (fun a => negb (is_N a)) pre = true ->
    is_N arg = true ->
    startup fs (prog :: pre ++ arg :: post) = Go st ->
    packet_size st
    = accepted_size (hex_value (firstn 8 (hex_prefix (skipn 2 arg)))).
Proof.
  intros fs prog pre arg post st Hpre HN H.
  destruct (startup_go fs prog _ st H) as [Hargs _].
  rewrite rev_app_distr in Hargs. cbn [rev] in Hargs.
  rewrite <- app_assoc, handle_args_app in Hargs.
  destruct (handle_args fs cli0 (rev post)) as [st1 |]; [| discriminate].
  cbn [app handle_args] in Hargs. rewrite handle_arg_cases in Hargs.
  destruct arg as [| c0 rest]; [discriminate |]. rewrite HN in Hargs.
  assert (Hrev : forallb (fun a => negb (is_N a)) (rev pre) = true).
  { apply forallb_forall. intros a Ha. apply in_rev in Ha.
    exact (proj1 (forallb_forall _ pre) Hpre a Ha). }
  rewrite (handle_args_no_N fs (rev pre) _ st Hrev Hargs).
  apply flag_N_accepted.
Qed.

Lemma first_N_decides_witness :
  packet_size {| packet_size := 24; n_flag := FLAG_OK; i_flag := FLAG_OK;
                 o_flag := FLAG_NOT_PRESENT; f_in := Some scenario1;
                 f_out := false; cli_err := [] |}
  = accepted_size (hex_value (firstn 8 (hex_prefix (skipn 2 (txt "-N18"))))).
Proof.
  apply (first_N_decides (one_file "in.srec" scenario1) (txt "srec2inc")
           [txt "-Iin.srec"] (txt "-N18") [txt "-N0C"]);
    reflexivity.
Defined.

Lemma same_files_sym st st' : same_files st st' -> same_files st' st.
Proof. unfold same_files. intuition congruence. Qed.

Lemma same_files_trans st1 st2 st3 :
  same_files st1 st2 -> same_files st2 st3 -> same_files st1 st3.
Proof. unfold same_files. intuition congruence. Qed.

Lemma same_end_refl x : (forall st, x <> Go st) -> same_end x x.
Proof.
  destruct x as [st | [s out err | out |]]; cbn; auto.
  intros H. now contradiction (H st).
Qed.

Lemma handle_arg_sim fs st st' arg :
  same_files st st' ->
  same_end (handle_arg fs st arg) (handle_arg fs st' arg).
Proof.
  intros Hsame. rewrite !handle_arg_cases.
  destruct arg as [| c0 rest]; [reflexivity |].
  destruct (is_N (c0 :: rest)).
  { cbn [same_end].
    eapply same_files_trans; [apply flag_N_files |].
    eapply same_files_trans; [exact Hsame |].
    apply same_files_sym, flag_N_files. }
  destruct Hsame as (Hi & Ho & Hfi & Hfo).
  destruct (is_I (c0 :: rest)).
  { cbn [same_end]. unfold flag_I. rewrite <- Hfi.
    destruct (f_in st); [repeat split; assumption |].
    destruct (content fs _); repeat split; assumption. }
  destruct (is_O (c0 :: rest)); [| now cbn].
  cbn [same_end]. unfold flag_O. rewrite <- Hfo.
  destruct (negb (f_out st) && creatable fs _); repeat split; assumption.
Qed.

Lemma handle_args_sim fs l :
  forall st st',
    same_files st st' ->
    same_end (handle_args fs st l) (handle_args fs st' l).
Proof.
  induction l as [| arg l IH]; intros st st' Hsame; [exact Hsame |].
  cbn [handle_args].
  pose proof (handle_arg_sim fs st st' arg Hsame) as Hstep.
  destruct (handle_arg fs st arg) as [s1 | [? ? ? | ? |]],
           (handle_arg fs st' arg) as [s2 | [? ? ? | ? |]];
    cbn [same_end] in Hstep |- *; try contradiction; try exact Hstep.
  now apply IH.
Qed.

(** X20. A -N argument never decides whether [main] converts, nor
    which files it uses: [n_flag] is set and never read.  With the
    argument and without it the start of [main] ends the same way, up to
    the packet size and the messages. *)
Theorem N_flag_never_decides :
  forall fs prog pre arg post,
    is_N arg = true ->
    same_end (startup fs (prog :: pre ++ arg :: post))
             (startup fs (prog :: pre ++ post)).
Proof.
  intros fs prog pre arg post HN. unfold startup.
  rewrite !rev_app_distr. cbn [rev]. rewrite <- app_assoc.
  rewrite !handle_args_app.
  destruct (handle_args fs cli0 (rev post)) as [s1 | e] eqn:E.
  2:{ apply same_end_refl. discriminate. }
  cbn [app handle_args]. rewrite handle_arg_cases.
  destruct arg as [| c0 rest]; [discriminate |]. rewrite HN.
  pose proof (handle_args_sim fs (rev pre) _ _ (flag_N_files s1 (c0 :: rest)))
    as Hsim.
  destruct (handle_args fs (flag_N s1 (c0 :: rest)) (rev pre))
    as [s2 | [? ? ? | ? |]],
           (handle_args fs s1 (rev pre)) as [s3 | [? ? ? | ? |]];
    cbn [same_end] in Hsim |- *; try contradiction; try exact Hsim.
  pose proof Hsim as (Hi & Ho & _). rewrite Hi, Ho.
  destruct (negb (flag_ok (i_flag s3))); [now cbn |].
  destruct (flag_ok (o_flag s3)); [exact Hsim |].
  destruct (o_flag s3); try (now cbn);
    (destruct (creatable fs _); [exact Hsim | now cbn]).
Qed.

Lemma N_flag_never_decides_witness :
  same_end (startup (one_file "in.srec" scenario1)
                    (txt "srec2inc" :: [txt "-Iin.srec"] ++ txt "-N10" :: []))
           (startup (one_file "in.srec" scenario1)
                    (txt "srec2inc" :: [txt "-Iin.srec"] ++ [])).
Proof.
  apply (N_flag_never_decides (one_file "in.srec" scenario1) (txt "srec2inc")
           [txt "-Iin.srec"] (txt "-N10") []).
  reflexivity.
Defined.

(* ================================================================== *)
(** * Packet sizes that [main] never passes *)


